(** * pg_check_conn: option parsing, connection-string rendering and
      result reporting

    A shallow embedding of [pg_check_conn.cpp].  [std::string] is the
    Standard Library's [string]; [std::string::npos] is [None] in an
    [option nat]; a thrown C++ exception is the [Throw] branch of a small
    error monad; the standard streams and the calls into libpq are events
    of an output trace.  The client library itself (PQconnectdb, PQstatus,
    PQerrorMessage) is a parameter of the development. *)

From Stdlib Require Import String Ascii List Bool Arith ZArith Lia.
Import ListNotations.

Open Scope string_scope.

(* ================================================================== *)
(** ** C strings *)

(** [s[0]] of a NUL-terminated [const char*]: the terminator when the
    string is empty. *)
Definition char0 (s : string) : ascii :=
  match s with
  | EmptyString => zero
  | String c _ => c
  end.

(* ================================================================== *)
(** ** The parts of [std::string] the program uses *)

Module StdString.

Definition empty (str : string) : bool :=
  match str with
  | EmptyString => true
  | String _ _ => false
  end.

(** Membership of a character in a character set given as a string. *)
Fixpoint mem (c : ascii) (chars : string) : bool :=
  match chars with
  | EmptyString => false
  | String d rest => Ascii.eqb c d || mem c rest
  end.

(** [str.find(ch, 0)] *)
Fixpoint find (str : string) (ch : ascii) : option nat :=
  match str with
  | EmptyString => None
  | String c rest =>
      if Ascii.eqb c ch then Some 0 else option_map S (find rest ch)
  end.

(** [str.find_first_not_of(chars)] *)
Fixpoint find_first_not_of (str chars : string) : option nat :=
  match str with
  | EmptyString => None
  | String c rest =>
      if mem c chars then option_map S (find_first_not_of rest chars)
      else Some 0
  end.

(** [str.find_last_not_of(chars)] *)
Fixpoint find_last_not_of (str chars : string) : option nat :=
  match str with
  | EmptyString => None
  | String c rest =>
      match find_last_not_of rest chars with
      | Some p => Some (S p)
      | None => if mem c chars then None else Some 0
      end
  end.

(** The characters of [str] from position [pos] on. *)
Fixpoint drop (pos : nat) (str : string) : string :=
  match pos, str with
  | 0, _ => str
  | S _, EmptyString => EmptyString
  | S p, String _ rest => drop p rest
  end.

(** [str.substr(pos, count)]; [count = None] is the default [npos].
    Every call in the program has [pos <= str.length()], where the
    library does not throw. *)
Definition substr (str : string) (pos : nat) (count : option nat) : string :=
  match count with
  | None => drop pos str
  | Some n => substring pos n str
  end.

(** [str.erase(pos, count)]; [count = None] is the default [npos].
    Every call in the program has [pos <= str.length()]. *)
Definition erase (str : string) (pos : nat) (count : option nat) : string :=
  match count with
  | None => substring 0 pos str
  | Some n => substring 0 pos str ++ drop (pos + n) str
  end.

End StdString.

(* ================================================================== *)
(** ** Token utilities *)

Definition HT : ascii := ascii_of_nat 9.
Definition LF : ascii := ascii_of_nat 10.
Definition VT : ascii := ascii_of_nat 11.
Definition FF : ascii := ascii_of_nat 12.
Definition CR : ascii := ascii_of_nat 13.

(** [const char whitespace[] = " \t\n\r\f\v"] *)
Definition whitespace : string :=
  String " "%char (String HT (String LF (String CR (String FF (String VT ""))))).

Definition ltrim (str : string) : string :=
  StdString.erase str 0 (StdString.find_first_not_of str whitespace).

Definition rtrim (str : string) : string :=
  match StdString.find_last_not_of str whitespace with
  | Some pos => StdString.erase str (pos + 1) None
  | None => ""
  end.

Definition trim (str : string) : string := ltrim (rtrim str).

(** [is_empty(const std::string&)] *)
Definition is_empty (arg : string) : bool := StdString.empty arg.

(* ================================================================== *)
(** ** Exceptions *)

(** The exception classes that reach the handlers of [main].
    [ConnException] derives from [std::runtime_error]; [OtherException]
    stands for any further class derived from [std::exception]. *)
Inductive exn : Type :=
| OutOfRange (what : string)
| RuntimeError (what : string)
| ConnException (what : string)
| OtherException (what : string).

Definition what (e : exn) : string :=
  match e with
  | OutOfRange w | RuntimeError w | ConnException w | OtherException w => w
  end.

Inductive res (A : Type) : Type :=
| Ok (a : A)
| Throw (e : exn).
Arguments Ok {A} a.
Arguments Throw {A} e.

Definition bind {A B : Type} (m : res A) (k : A -> res B) : res B :=
  match m with
  | Ok a => k a
  | Throw e => Throw e
  end.

Notation "x <- m ;; k" := (bind m (fun x => k))
  (at level 61, m at next level, right associativity).

(* ================================================================== *)
(** ** Argument parser *)

(** [parse_next_arg(argc, argv, index, errMsg)]; [argc] is the length
    of [argv]. *)
Definition parse_next_arg (argv : list string) (index : nat)
    (errMsg : string) : res string :=
  match nth_error argv (index + 1) with
  | Some next =>
      if negb (Ascii.eqb (char0 next) "-"%char) then
        let a := trim next in
        if negb (StdString.empty a) then Ok a
        else Throw (OutOfRange errMsg)
      else Throw (OutOfRange errMsg)
  | None => Throw (OutOfRange errMsg)
  end.

(** [parse_equal_arg(arg, errMsg)] *)
Definition parse_equal_arg (arg : string) (errMsg : string) : res string :=
  match StdString.find arg "="%char with
  | Some pos =>
      if Nat.ltb pos (String.length arg) then
        let a := trim (StdString.substr arg (pos + 1) None) in
        if negb (StdString.empty a) then Ok a
        else Throw (RuntimeError errMsg)
      else Throw (RuntimeError errMsg)
  | None => Throw (RuntimeError errMsg)
  end.

(** The string locals of [main] that hold the parsed options. *)
Record ConnSpec : Type := mkConnSpec {
  database : string;
  username : string;
  host : string;
  hostaddr : string;
  port : string;
  timeout : string
}.

(** All six default-constructed. *)
Definition no_options : ConnSpec := mkConnSpec "" "" "" "" "" "".

Definition set_database v s :=
  mkConnSpec v (username s) (host s) (hostaddr s) (port s) (timeout s).
Definition set_username v s :=
  mkConnSpec (database s) v (host s) (hostaddr s) (port s) (timeout s).
Definition set_host v s :=
  mkConnSpec (database s) (username s) v (hostaddr s) (port s) (timeout s).
Definition set_hostaddr v s :=
  mkConnSpec (database s) (username s) (host s) v (port s) (timeout s).
Definition set_port v s :=
  mkConnSpec (database s) (username s) (host s) (hostaddr s) v (timeout s).
Definition set_timeout v s :=
  mkConnSpec (database s) (username s) (host s) (hostaddr s) (port s) v.

(** One pass through the body of the [for] loop of [main] with
    [opt = argv[index]].  Returns the updated locals and the value of
    [index] at the end of the body, before the loop's own [++index]. *)
Definition loop_body (argv : list string) (index : nat) (opt : string)
    (s : ConnSpec) : res (ConnSpec * nat) :=
  if String.eqb opt "-d" then
    a <- parse_next_arg argv index "missing database argument" ;;
    Ok (set_database a s, index + 1)
  else if String.eqb (StdString.substr opt 0 (Some 8)) "--dbname" then
    a <- parse_equal_arg opt "missing database argument" ;;
    Ok (set_database a s, index)
  else if String.eqb opt "-U" then
    a <- parse_next_arg argv index "missing username argument" ;;
    Ok (set_username a s, index + 1)
  else if String.eqb (StdString.substr opt 0 (Some 10)) "--username" then
    a <- parse_equal_arg opt "missing username argument" ;;
    Ok (set_username a s, index)
  else if String.eqb opt "-h" then
    a <- parse_next_arg argv index "missing hostname argument" ;;
    Ok (set_host a s, index + 1)
  else if String.eqb (StdString.substr opt 0 (Some 10)) "--hostname" then
    a <- parse_equal_arg opt "missing hostname argument" ;;
    Ok (set_host a s, index)
  else if String.eqb (StdString.substr opt 0 (Some 10)) "--hostaddr" then
    a <- parse_equal_arg opt "missing hostaddr argument" ;;
    Ok (set_hostaddr a s, index)
  else if String.eqb opt "-p" then
    a <- parse_next_arg argv index "missing port argument" ;;
    Ok (set_port a s, index + 1)
  else if String.eqb (StdString.substr opt 0 (Some 6)) "--port" then
    a <- parse_equal_arg opt "missing port argument" ;;
    Ok (set_port a s, index)
  else if String.eqb opt "-t" then
    a <- parse_next_arg argv index "missing timeout argument" ;;
    Ok (set_timeout a s, index + 1)
  else if String.eqb (StdString.substr opt 0 (Some 9)) "--timeout" then
    a <- parse_equal_arg opt "missing timeout argument" ;;
    Ok (set_timeout a s, index)
  else Ok (s, index).

(** [for (index = ...; index < argc; ++index) { ... }], entered with the
    given [index] and locals.  Each pass moves [index] forward, so [argc]
    passes always suffice; [None] means the passes allowed by [fuel] ran
    out with the loop condition still true. *)
Fixpoint parse_loop (fuel : nat) (argv : list string) (index : nat)
    (s : ConnSpec) : option (res ConnSpec) :=
  match nth_error argv index with
  | None => Some (Ok s)
  | Some opt =>
      match fuel with
      | 0 => None
      | S fuel' =>
          match loop_body argv index opt s with
          | Throw e => Some (Throw e)
          | Ok (s', index') => parse_loop fuel' argv (S index') s'
          end
      end
  end.

(** The whole option loop of [main], from [index = 1]. *)
Definition parse_args (argv : list string) : option (res ConnSpec) :=
  parse_loop (List.length argv) argv 1 no_options.

(* ================================================================== *)
(** ** Connection-string builder *)

(** The [connstr << ...] statements of [main]. *)
Definition build_connstr (s : ConnSpec) : string :=
  let connstr := "" in
  let connstr :=
    if negb (is_empty (database s))
    then connstr ++ "dbname=" ++ database s ++ " " else connstr in
  let connstr :=
    if negb (is_empty (username s))
    then connstr ++ "user=" ++ username s ++ " " else connstr in
  let connstr :=
    if negb (is_empty (hostaddr s))
    then connstr ++ "hostaddr=" ++ hostaddr s ++ " " else connstr in
  let connstr :=
    if negb (is_empty (host s))
    then connstr ++ "host=" ++ host s ++ " " else connstr in
  let connstr :=
    if negb (is_empty (port s))
    then connstr ++ "port=" ++ port s ++ " " else connstr in
  let connstr :=
    if negb (is_empty (timeout s))
    then connstr ++ "connect_timeout=" ++ timeout s ++ " " else connstr in
  connstr.

(* ================================================================== *)
(** ** The program: probe and report *)

(** What the process does that can be observed from outside, in order. *)
Inductive event : Type :=
| Stdout (text : string)          (* written to [std::cout] *)
| Stderr (text : string)          (* written to [std::cerr] *)
| Connect (conninfo : string)     (* the call of [PQconnectdb] *)
| Finish.                         (* the call of [PQfinish] *)

(** [std::endl] *)
Definition endl : string := String LF "".

(** libpq's [ConnStatusType] starts with [CONNECTION_OK], so it is 0. *)
Definition CONNECTION_OK : Z := 0.

Section Program.

(** The client library: a connection handle, [PQconnectdb] (which may
    return [NULL], here [None]), [PQstatus] on a handle, read as the
    [int] that [main] returns, and [PQerrorMessage], which also accepts
    [NULL]. *)
Variable PGconn : Type.
Variable PQconnectdb : string -> option PGconn.
Variable PQstatus : PGconn -> Z.
Variable PQerrorMessage : option PGconn -> string.

(** The process environment, [getenv]. *)
Variable getenv : string -> option string.

(** The locals of [main] that outlive the [try] block, and the output
    so far. *)
Record state : Type := mkState {
  conn : option PGconn;
  ret : Z;
  out : list event
}.

Definition initial : state := mkState None 0 [].

Definition emit (ev : event) (st : state) : state :=
  mkState (conn st) (ret st) (out st ++ [ev]).

(** The debug logging of the [try] block. *)
Definition debug_log (connstr : string) (st : state) : state :=
  match getenv "PGDEBUG" with
  | Some pgdebug =>
      if Ascii.eqb (char0 pgdebug) "1"%char
      then emit (Stdout ("Conn string: " ++ connstr ++ endl)) st
      else st
  | None => st
  end.

(** [conn == NULL || PQstatus(conn) != CONNECTION_OK] *)
Definition conn_failed (c : option PGconn) : bool :=
  match c with
  | None => true
  | Some h => negb (Z.eqb (PQstatus h) CONNECTION_OK)
  end.

(** The [try] block after the option loop. *)
Definition probe (spec : ConnSpec) (st : state) : state * res unit :=
  let connstr := build_connstr spec in
  let st := debug_log connstr st in
  let st := emit (Connect connstr) st in
  let st := mkState (PQconnectdb connstr) (ret st) (out st) in
  if conn_failed (conn st)
  then (st, Throw (ConnException (PQerrorMessage (conn st))))
  else (mkState (conn st) 0 (out st), Ok tt).

(** The two [catch] clauses, in their order. *)
Definition handler (e : exn) (st : state) : state :=
  match e with
  | ConnException w =>
      let st := emit (Stdout ("Error: " ++ w ++ endl)) st in
      match conn st with
      | Some h => mkState (conn st) (PQstatus h) (out st)
      | None => mkState (conn st) (-1) (out st)
      end
  | OutOfRange w | RuntimeError w | OtherException w =>
      let st := emit (Stderr ("Error: " ++ w ++ endl)) st in
      mkState (conn st) (-1) (out st)
  end.

(** The statements after the handlers. *)
Definition cleanup (st : state) : state :=
  match conn st with
  | Some _ => mkState None (ret st) (out st ++ [Finish])
  | None => st
  end.

(** The [try] block applied to the outcome of the option loop. *)
Definition try_block (parsed : res ConnSpec) (st : state)
    : state * res unit :=
  match parsed with
  | Throw e => (st, Throw e)
  | Ok spec => probe spec st
  end.

(** The part of [main] after the option loop. *)
Definition run (parsed : res ConnSpec) : list event * Z :=
  let '(st, r) := try_block parsed initial in
  let st := match r with
            | Ok _ => st
            | Throw e => handler e st
            end in
  let st := cleanup st in
  (out st, ret st).

(** [main(argc, argv)]: the output and the value of [ret] that [main]
    returns. *)
Definition main (argv : list string) : option (list event * Z) :=
  option_map run (parse_args argv).

End Program.

(* ================================================================== *)
(** ** Vocabulary of the statements *)

(** The six options of the command line, as fields of [ConnSpec]. *)
Inductive field : Type :=
| Database | Username | Host | Hostaddr | Port | Timeout.

Definition get (f : field) (s : ConnSpec) : string :=
  match f with
  | Database => database s
  | Username => username s
  | Host => host s
  | Hostaddr => hostaddr s
  | Port => port s
  | Timeout => timeout s
  end.

Definition set (f : field) (v : string) (s : ConnSpec) : ConnSpec :=
  match f with
  | Database => set_database v s
  | Username => set_username v s
  | Host => set_host v s
  | Hostaddr => set_hostaddr v s
  | Port => set_port v s
  | Timeout => set_timeout v s
  end.

(** The option table: short form (none for [Hostaddr]), the name that
    starts a long form, and the message of the parse error. *)
Definition short_form (f : field) : option string :=
  match f with
  | Database => Some "-d"
  | Username => Some "-U"
  | Host => Some "-h"
  | Hostaddr => None
  | Port => Some "-p"
  | Timeout => Some "-t"
  end.

Definition long_form (f : field) : string :=
  match f with
  | Database => "--dbname"
  | Username => "--username"
  | Host => "--hostname"
  | Hostaddr => "--hostaddr"
  | Port => "--port"
  | Timeout => "--timeout"
  end.

Definition missing (f : field) : string :=
  match f with
  | Database => "missing database argument"
  | Username => "missing username argument"
  | Host => "missing hostname argument"
  | Hostaddr => "missing hostaddr argument"
  | Port => "missing port argument"
  | Timeout => "missing timeout argument"
  end.

(** A token is a long form of [f] when it starts with the option's name. *)
Definition is_long (f : field) (tok : string) : Prop :=
  exists rest, tok = long_form f ++ rest.

Definition is_space (c : ascii) : bool := StdString.mem c whitespace.
Arguments is_space : simpl never.

(** Every character of the string is one of the six of [whitespace]. *)
Fixpoint blank (str : string) : bool :=
  match str with
  | EmptyString => true
  | String c rest => is_space c && blank rest
  end.

Fixpoint last_char (str : string) : option ascii :=
  match str with
  | EmptyString => None
  | String c EmptyString => Some c
  | String _ rest => last_char rest
  end.

(** Neither the first nor the last character is whitespace. *)
Definition trimmed (str : string) : Prop :=
  is_space (char0 str) = false /\
  forall c, last_char str = Some c -> is_space c = false.

(** The character [c] occurs in the string. *)
Definition occurs (c : ascii) (str : string) : Prop :=
  exists a b, str = a ++ String c b.

Definition begins_with (c : ascii) (str : string) : Prop :=
  exists rest, str = String c rest.

(** The parse result up to the class of the exception: the locals on
    success, the message on a throw. *)
Definition outcome (r : res ConnSpec) : ConnSpec + string :=
  match r with
  | Ok s => inl s
  | Throw e => inr (what e)
  end.

(** The positions at which the loop body runs, with the locals on entry:
    the first pass is at index 1, and a pass that ends without a throw is
    followed by the pass at its final index plus one. *)
Inductive visits (argv : list string) : nat -> ConnSpec -> Prop :=
| visits_first : visits argv 1 no_options
| visits_next : forall index opt s s' index',
    visits argv index s ->
    nth_error argv index = Some opt ->
    loop_body argv index opt s = Ok (s', index') ->
    visits argv (S index') s'.

(** The pass with the index read relative to the current token. *)
Definition relative (index : nat) (r : res (ConnSpec * nat))
    : res (ConnSpec * nat) :=
  match r with
  | Ok (s, index') => Ok (s, index' - index)
  | Throw e => Throw e
  end.

(** The builder as the specification words it: the pairs in the given
    order, each as [key=value] followed by a space, an empty value
    leaving no trace. *)
Fixpoint render_pairs (kvs : list (string * string)) : string :=
  match kvs with
  | [] => ""
  | (k, v) :: rest =>
      if StdString.empty v then render_pairs rest
      else k ++ "=" ++ v ++ " " ++ render_pairs rest
  end.

(** The token list scanned left to right, the first [skip] tokens passed
    over: what the indexed loop does on the tokens from its index on. *)
Fixpoint scan (toks : list string) (skip : nat) (s : ConnSpec)
    : res ConnSpec :=
  match toks with
  | [] => Ok s
  | opt :: rest =>
      match skip with
      | S k => scan rest k s
      | 0 =>
          match loop_body toks 0 opt s with
          | Throw e => Throw e
          | Ok (s', index') => scan rest index' s'
          end
      end
  end.


(** The token is an option for the field [f], in either form. *)
Definition names_field (f : field) (tok : string) : Prop :=
  short_form f = Some tok \/ is_long f tok.

(** The tokens that give the field [f] the raw value [v]: the short form
    followed by a value that does not begin with a dash, or the long form
    with the value after [=]. *)
Inductive supplies (f : field) (v : string) : list string -> Prop :=
| supplies_short : forall sh,
    short_form f = Some sh -> ~ begins_with "-" v -> supplies f v [sh; v]
| supplies_long : supplies f v [long_form f ++ String "=" v].

(** Vocabulary for the outcome of a run. *)
Section Outcome.

Variable PGconn : Type.
Variable PQconnectdb : string -> option PGconn.
Variable PQstatus : PGconn -> Z.
Variable getenv : string -> option string.

(** The variable PGDEBUG is set and its value starts with [1]. *)
Definition debug_requested : Prop :=
  exists value, getenv "PGDEBUG" = Some value /\ begins_with "1" value.

(** The options parse, and the library returns a handle whose status is
    [CONNECTION_OK]. *)
Definition succeeded (argv : list string) : Prop :=
  exists spec h,
    parse_args argv = Some (Ok spec) /\
    PQconnectdb (build_connstr spec) = Some h /\
    PQstatus h = CONNECTION_OK.

(** A line [Error: <msg>] went to one of the two streams. *)
Definition error_reported (trace : list event) : Prop :=
  exists msg,
    In (Stdout ("Error: " ++ msg ++ endl)) trace \/
    In (Stderr ("Error: " ++ msg ++ endl)) trace.

End Outcome.

(* ================================================================== *)
(** ** Strings *)

Section StringFacts.

Import StdString.

Lemma append_nil_r (s : string) : s ++ "" = s.
Proof. induction s; simpl; congruence. Qed.

Lemma append_assoc (a b c : string) : (a ++ b) ++ c = a ++ b ++ c.
Proof. induction a; simpl; congruence. Qed.

Lemma empty_true (s : string) : empty s = true <-> s = "".
Proof. destruct s; simpl; split; congruence. Qed.

Lemma empty_false (s : string) : empty s = false <-> s <> "".
Proof. destruct s; simpl; split; congruence. Qed.

Lemma drop_append (a b : string) : drop (String.length a) (a ++ b) = b.
Proof. induction a; simpl; auto. Qed.

Lemma substring_prefix (p s : string) :
  substring 0 (String.length p) s = p -> s = p ++ drop (String.length p) s.
Proof.
  revert s; induction p as [|c p IH]; intros s H; simpl in *.
  - reflexivity.
  - destruct s as [|d s]; [discriminate|].
    injection H as -> H. f_equal. now apply IH.
Qed.

Lemma substring_append (p rest : string) :
  substring 0 (String.length p) (p ++ rest) = p.
Proof.
  induction p as [|c p IH]; simpl.
  - destruct rest; reflexivity.
  - now rewrite IH.
Qed.

Lemma occurs_nil (c : ascii) : ~ occurs c "".
Proof. intros (a & b & H). destruct a; discriminate. Qed.

Lemma occurs_cons (c d : ascii) (s : string) :
  occurs c (String d s) <-> d = c \/ occurs c s.
Proof.
  split.
  - intros (a & b & H). destruct a as [|e a]; simpl in H.
    + left; congruence.
    + right. injection H as _ ->. now exists a, b.
  - intros [->|(a & b & ->)].
    + now exists "", s.
    + now exists (String d a), b.
Qed.

(** [find] returns the position of the first occurrence. *)
Lemma find_some (s : string) (c : ascii) (n : nat) :
  find s c = Some n ->
  exists a b, s = a ++ String c b /\ ~ occurs c a /\ String.length a = n.
Proof.
  revert n; induction s as [|d s IH]; intros n; simpl; [discriminate|].
  destruct (Ascii.eqb_spec d c) as [->|Hdc].
  - intros [= <-]. exists "", s. repeat split. apply occurs_nil.
  - destruct (find s c) as [m|]; simpl; [|discriminate].
    intros [= <-]. destruct (IH m eq_refl) as (a & b & -> & Hno & Hlen).
    exists (String d a), b. repeat split; simpl; [|congruence].
    rewrite occurs_cons. tauto.
Qed.

Lemma find_none (s : string) (c : ascii) :
  find s c = None <-> ~ occurs c s.
Proof.
  split.
  - induction s as [|d s IH]; simpl; [intros _; apply occurs_nil|].
    rewrite occurs_cons. destruct (Ascii.eqb_spec d c) as [->|Hdc].
    + discriminate.
    + destruct (find s c); simpl; [discriminate|]. intros _ [?|?]; tauto.
  - intros Hno. destruct (find s c) as [n|] eqn:E; [|reflexivity].
    exfalso; apply Hno. destruct (find_some _ _ _ E) as (a & b & -> & _).
    now exists a, b.
Qed.

Lemma find_first (a b : string) (c : ascii) :
  ~ occurs c a -> find (a ++ String c b) c = Some (String.length a).
Proof.
  induction a as [|d a IH]; intros Hno; simpl.
  - now rewrite Ascii.eqb_refl.
  - rewrite occurs_cons in Hno. destruct (Ascii.eqb_spec d c); [tauto|].
    rewrite IH; [reflexivity | tauto].
Qed.

Lemma length_append (a b : string) :
  String.length (a ++ b) = String.length a + String.length b.
Proof. induction a; simpl; auto. Qed.

(** *** Trimming *)

Lemma ltrim_nil : ltrim "" = "".
Proof. reflexivity. Qed.

Lemma find_first_not_of_cons (c : ascii) (r chars : string) :
  find_first_not_of (String c r) chars =
  if mem c chars then option_map S (find_first_not_of r chars) else Some 0.
Proof. reflexivity. Qed.

Lemma find_last_not_of_cons (c : ascii) (r chars : string) :
  find_last_not_of (String c r) chars =
  match find_last_not_of r chars with
  | Some p => Some (S p)
  | None => if mem c chars then None else Some 0
  end.
Proof. reflexivity. Qed.

Lemma ltrim_cons (c : ascii) (r : string) :
  ltrim (String c r) = if is_space c then ltrim r else String c r.
Proof.
  unfold ltrim, is_space; rewrite find_first_not_of_cons.
  destruct (mem c whitespace); [|reflexivity].
  destruct (find_first_not_of r whitespace); destruct r; reflexivity.
Qed.

Lemma find_last_not_of_blank (s : string) :
  find_last_not_of s whitespace = None <-> blank s = true.
Proof.
  induction s as [|c s IH]; [simpl; tauto|].
  rewrite find_last_not_of_cons. cbn [blank]. unfold is_space at 1.
  destruct (find_last_not_of s whitespace).
  - split; [discriminate|]. rewrite andb_true_iff. intros [_ H].
    apply IH in H; discriminate.
  - destruct IH as [IH _]. rewrite (IH eq_refl), andb_true_r.
    destruct (mem c whitespace); split; congruence.
Qed.

Lemma find_last_not_of_bound (s : string) (p : nat) :
  find_last_not_of s whitespace = Some p -> p < String.length s.
Proof.
  revert p; induction s as [|c s IH]; intros p; [discriminate|].
  rewrite find_last_not_of_cons. cbn [String.length].
  destruct (find_last_not_of s whitespace) as [q|].
  - intros [= <-]. specialize (IH q eq_refl). lia.
  - destruct (mem c whitespace); intros [= <-]. lia.
Qed.

Lemma rtrim_nil : rtrim "" = "".
Proof. reflexivity. Qed.

Lemma rtrim_cons (c : ascii) (r : string) :
  rtrim (String c r) =
  if blank r then (if is_space c then "" else String c "")
  else String c (rtrim r).
Proof.
  unfold rtrim, is_space; rewrite find_last_not_of_cons.
  destruct (find_last_not_of r whitespace) as [p|] eqn:E.
  - destruct (blank r) eqn:B.
    + apply find_last_not_of_blank in B; congruence.
    + unfold erase. replace (S p + 1) with (S (p + 1)) by lia. reflexivity.
  - apply find_last_not_of_blank in E; rewrite E.
    destruct (mem c whitespace); [reflexivity|].
    unfold erase; simpl. destruct r; reflexivity.
Qed.

Lemma ltrim_blank (s : string) : blank s = true -> ltrim s = "".
Proof.
  induction s as [|c s IH]; [reflexivity|]. simpl.
  rewrite andb_true_iff; intros [Hc Hs]. rewrite ltrim_cons, Hc. auto.
Qed.

Lemma rtrim_blank (s : string) : blank s = true -> rtrim s = "".
Proof.
  destruct s as [|c s]; [reflexivity|]. simpl.
  rewrite andb_true_iff; intros [Hc Hs]. now rewrite rtrim_cons, Hs, Hc.
Qed.

Lemma rtrim_empty (s : string) : rtrim s = "" -> blank s = true.
Proof.
  destruct s as [|c s]; [reflexivity|]. rewrite rtrim_cons; simpl.
  destruct (blank s); [|discriminate].
  destruct (is_space c); [reflexivity | discriminate].
Qed.

(** [ltrim] leaves a string that does not start with whitespace and
    takes nothing but whitespace away. *)
Lemma ltrim_front (s : string) : is_space (char0 (ltrim s)) = false.
Proof.
  induction s as [|c s IH]; [reflexivity|]. rewrite ltrim_cons.
  destruct (is_space c) eqn:E; [exact IH | exact E].
Qed.

Lemma ltrim_split (s : string) :
  exists l, s = l ++ ltrim s /\ blank l = true.
Proof.
  induction s as [|c s (l & IH & Hl)].
  - now exists "".
  - rewrite ltrim_cons. destruct (is_space c) eqn:E.
    + exists (String c l). simpl. rewrite E, Hl.
      split; [now f_equal | reflexivity].
    + now exists "".
Qed.

Lemma rtrim_split (s : string) :
  exists r, s = rtrim s ++ r /\ blank r = true.
Proof.
  induction s as [|c s (r & IH & Hr)].
  - now exists "".
  - rewrite rtrim_cons. destruct (blank s) eqn:B.
    + destruct (is_space c) eqn:E.
      * exists (String c s). simpl. now rewrite E, B.
      * now exists s.
    + exists r. simpl. split; congruence.
Qed.

Lemma last_char_cons (c : ascii) (s : string) :
  s <> "" -> last_char (String c s) = last_char s.
Proof. destruct s; simpl; congruence. Qed.

Lemma rtrim_last (s : string) (c : ascii) :
  last_char (rtrim s) = Some c -> is_space c = false.
Proof.
  induction s as [|d s IH]; [discriminate|]. rewrite rtrim_cons.
  destruct (blank s) eqn:B.
  - destruct (is_space d) eqn:E; simpl; congruence.
  - rewrite last_char_cons; [exact IH|].
    intros H. apply rtrim_empty in H. congruence.
Qed.

Lemma ltrim_last (s : string) (c : ascii) :
  last_char (ltrim s) = Some c -> last_char s = Some c.
Proof.
  induction s as [|d s IH]; [discriminate|]. rewrite ltrim_cons.
  destruct (is_space d); [|auto].
  intros H. rewrite last_char_cons; [auto|].
  intros ->. discriminate.
Qed.

(** What [trim] returns starts and ends with a character that is not
    whitespace, unless it is empty. *)
Lemma trim_trimmed (s : string) : trimmed (trim s).
Proof.
  split.
  - apply ltrim_front.
  - intros c H. apply ltrim_last in H. now apply rtrim_last in H.
Qed.

(** [trim] removes whitespace only, at the two ends. *)
Lemma trim_split (s : string) :
  exists l r, s = l ++ trim s ++ r /\ blank l = true /\ blank r = true.
Proof.
  destruct (rtrim_split s) as (r & Hs & Hr).
  destruct (ltrim_split (rtrim s)) as (l & Hm & Hl).
  exists l, r. repeat split; auto.
  unfold trim. rewrite <- append_assoc, <- Hm. exact Hs.
Qed.

Lemma blank_append (a b : string) :
  blank (a ++ b) = blank a && blank b.
Proof.
  induction a as [|c a IH]; simpl; [reflexivity|].
  now rewrite IH, andb_assoc.
Qed.

(** [trim] returns the empty string exactly on whitespace-only input. *)
Lemma trim_empty (s : string) : trim s = "" <-> blank s = true.
Proof.
  split.
  - intros H. destruct (trim_split s) as (l & r & Hs & Hl & Hr).
    rewrite H in Hs. rewrite Hs, blank_append, Hl. exact Hr.
  - intros H. unfold trim. now rewrite (rtrim_blank _ H).
Qed.

(** A string that is already trimmed is left as it is. *)
Lemma ltrim_fixed (s : string) :
  is_space (char0 s) = false -> ltrim s = s.
Proof.
  destruct s as [|c s]; [reflexivity|]. simpl. rewrite ltrim_cons.
  now intros ->.
Qed.

Lemma rtrim_fixed (s : string) :
  (forall c, last_char s = Some c -> is_space c = false) -> rtrim s = s.
Proof.
  induction s as [|d s IH]; [reflexivity|]. intros H. rewrite rtrim_cons.
  destruct s as [|e s].
  - simpl. now rewrite (H d eq_refl).
  - assert (Hs : forall c, last_char (String e s) = Some c -> is_space c = false).
    { intros c Hc. apply H. rewrite last_char_cons; [exact Hc | discriminate]. }
    specialize (IH Hs). rewrite IH.
    destruct (blank (String e s)) eqn:B; [|reflexivity].
    apply rtrim_blank in B. congruence.
Qed.

Lemma trim_fixed (s : string) : trimmed s -> trim s = s.
Proof.
  intros [Hf Hl]. unfold trim. rewrite (rtrim_fixed _ Hl).
  now apply ltrim_fixed.
Qed.

Lemma trim_idempotent (s : string) : trim (trim s) = trim s.
Proof. apply trim_fixed, trim_trimmed. Qed.

End StringFacts.

(* ================================================================== *)
(** ** The two value parsers *)

Section ValueParsers.

Import StdString.

Lemma front_dash (tok : string) :
  Ascii.eqb (char0 tok) "-" = true <-> begins_with "-" tok.
Proof.
  destruct tok as [|c r]; simpl.
  - split; [discriminate | intros (x & H); discriminate].
  - rewrite Ascii.eqb_eq. split.
    + intros ->. now exists r.
    + intros (x & H). congruence.
Qed.

(** [parse_next_arg] throws nothing but [std::out_of_range] with the
    message it was given. *)
Lemma parse_next_arg_throw argv index errMsg e :
  parse_next_arg argv index errMsg = Throw e -> e = OutOfRange errMsg.
Proof.
  unfold parse_next_arg. destruct (nth_error argv (index + 1)) as [next|].
  - destruct (negb _); [destruct (negb _)|]; congruence.
  - congruence.
Qed.

Lemma parse_next_arg_ok argv index errMsg a :
  parse_next_arg argv index errMsg = Ok a <->
  exists next, nth_error argv (index + 1) = Some next /\
               ~ begins_with "-" next /\ trim next <> "" /\ a = trim next.
Proof.
  unfold parse_next_arg. split.
  - destruct (nth_error argv (index + 1)) as [next|]; [|discriminate].
    destruct (Ascii.eqb (char0 next) "-") eqn:D; simpl; [discriminate|].
    destruct (empty (trim next)) eqn:E; simpl; [discriminate|].
    intros [= <-]. exists next. repeat split.
    + rewrite <- front_dash. congruence.
    + now apply empty_false.
  - intros (next & -> & Hd & He & ->).
    destruct (Ascii.eqb (char0 next) "-") eqn:D; simpl.
    + now apply front_dash in D.
    + apply empty_false in He. now rewrite He.
Qed.

Lemma parse_next_arg_fails argv index errMsg :
  parse_next_arg argv index errMsg = Throw (OutOfRange errMsg) <->
  nth_error argv (index + 1) = None \/
  exists next, nth_error argv (index + 1) = Some next /\
               (begins_with "-" next \/ trim next = "").
Proof.
  split.
  - intros H. destruct (nth_error argv (index + 1)) as [next|] eqn:N;
      [right | now left].
    exists next. split; [reflexivity|].
    unfold parse_next_arg in H. rewrite N in H.
    destruct (Ascii.eqb (char0 next) "-") eqn:D; simpl in H.
    + left. now apply front_dash.
    + destruct (empty (trim next)) eqn:E; simpl in H; [|discriminate].
      right. now apply empty_true.
  - intros H. destruct (parse_next_arg argv index errMsg) as [a|e] eqn:P.
    + apply parse_next_arg_ok in P. destruct P as (next & N & Hd & He & _).
      destruct H as [H|(next' & N' & [H|H])]; rewrite N in *;
        try discriminate; injection N' as <-; tauto.
    + now rewrite (parse_next_arg_throw _ _ _ _ P).
Qed.

(** [parse_equal_arg] throws nothing but [std::runtime_error] with the
    message it was given. *)
Lemma parse_equal_arg_throw arg errMsg e :
  parse_equal_arg arg errMsg = Throw e -> e = RuntimeError errMsg.
Proof.
  unfold parse_equal_arg. destruct (find arg "=") as [pos|].
  - destruct (Nat.ltb _ _); [destruct (negb _)|]; congruence.
  - congruence.
Qed.

Lemma parse_equal_arg_no_equal arg errMsg :
  ~ occurs "=" arg ->
  parse_equal_arg arg errMsg = Throw (RuntimeError errMsg).
Proof.
  intros H. apply find_none in H. unfold parse_equal_arg. now rewrite H.
Qed.

(** On a token with an [=], the value is what follows the first one. *)
Lemma parse_equal_arg_split name value errMsg :
  ~ occurs "=" name ->
  parse_equal_arg (name ++ String "=" value) errMsg =
  if empty (trim value) then Throw (RuntimeError errMsg)
  else Ok (trim value).
Proof.
  intros H. unfold parse_equal_arg. rewrite (find_first _ _ _ H).
  rewrite length_append; simpl String.length.
  replace (Nat.ltb _ _) with true by (symmetry; apply Nat.ltb_lt; lia).
  unfold substr.
  replace (String.length name + 1) with (String.length (name ++ "=")).
  2:{ rewrite length_append. reflexivity. }
  replace (name ++ String "=" value) with ((name ++ "=") ++ value).
  2:{ rewrite append_assoc. reflexivity. }
  rewrite drop_append. now destruct (empty (trim value)).
Qed.

End ValueParsers.

(* ================================================================== *)
(** ** One pass of the loop *)

Section LoopBody.

Import StdString.

Lemma short_form_dash f sh : short_form f = Some sh -> begins_with "-" sh.
Proof. destruct f; intros [= <-]; eexists; reflexivity. Qed.

Lemma is_long_dash f tok : is_long f tok -> begins_with "-" tok.
Proof. intros (rest & ->). destruct f; eexists; reflexivity. Qed.

(** A short form goes through [parse_next_arg] and moves the index. *)
Lemma loop_body_short f sh argv index s :
  short_form f = Some sh ->
  loop_body argv index sh s =
  (a <- parse_next_arg argv index (missing f) ;;
   Ok (set f a s, index + 1)).
Proof. destruct f; intros [= <-]; reflexivity. Qed.

(** A long form goes through [parse_equal_arg] and leaves the index. *)
Lemma loop_body_long f tok argv index s :
  is_long f tok ->
  loop_body argv index tok s =
  (a <- parse_equal_arg tok (missing f) ;; Ok (set f a s, index)).
Proof. intros (rest & ->). destruct f; destruct rest; reflexivity. Qed.

Lemma prefix_is_long f tok :
  String.eqb (substr tok 0 (Some (String.length (long_form f))))
             (long_form f) = true ->
  is_long f tok.
Proof.
  intros H. apply String.eqb_eq in H. unfold substr in H.
  apply substring_prefix in H. eexists; exact H.
Qed.

(** Every token is a short form, a long form, or passed over. *)
Lemma loop_body_view opt :
  (exists f, short_form f = Some opt) \/
  (exists f, is_long f opt) \/
  (forall argv index s, loop_body argv index opt s = Ok (s, index)).
Proof.
  destruct (String.eqb opt "-d") eqn:E1.
  { apply String.eqb_eq in E1; subst. left; now exists Database. }
  destruct (String.eqb (substr opt 0 (Some 8)) "--dbname") eqn:E2.
  { right; left; exists Database. now apply prefix_is_long. }
  destruct (String.eqb opt "-U") eqn:E3.
  { apply String.eqb_eq in E3; subst. left; now exists Username. }
  destruct (String.eqb (substr opt 0 (Some 10)) "--username") eqn:E4.
  { right; left; exists Username. now apply prefix_is_long. }
  destruct (String.eqb opt "-h") eqn:E5.
  { apply String.eqb_eq in E5; subst. left; now exists Host. }
  destruct (String.eqb (substr opt 0 (Some 10)) "--hostname") eqn:E6.
  { right; left; exists Host. now apply prefix_is_long. }
  destruct (String.eqb (substr opt 0 (Some 10)) "--hostaddr") eqn:E7.
  { right; left; exists Hostaddr. now apply prefix_is_long. }
  destruct (String.eqb opt "-p") eqn:E8.
  { apply String.eqb_eq in E8; subst. left; now exists Port. }
  destruct (String.eqb (substr opt 0 (Some 6)) "--port") eqn:E9.
  { right; left; exists Port. now apply prefix_is_long. }
  destruct (String.eqb opt "-t") eqn:E10.
  { apply String.eqb_eq in E10; subst. left; now exists Timeout. }
  destruct (String.eqb (substr opt 0 (Some 9)) "--timeout") eqn:E11.
  { right; left; exists Timeout. now apply prefix_is_long. }
  right; right. intros argv index s. unfold loop_body.
  now rewrite E1, E2, E3, E4, E5, E6, E7, E8, E9, E10, E11.
Qed.

(** A token that does not start with a dash is passed over. *)
Lemma loop_body_plain opt argv index s :
  ~ begins_with "-" opt -> loop_body argv index opt s = Ok (s, index).
Proof.
  intros H. destruct (loop_body_view opt) as [(f & F)|[(f & F)|F]].
  - now apply short_form_dash in F.
  - now apply is_long_dash in F.
  - apply F.
Qed.

(** The loop throws only the two classes of the value parsers. *)
Lemma loop_body_throw argv index opt s e :
  loop_body argv index opt s = Throw e ->
  exists f, e = OutOfRange (missing f) \/ e = RuntimeError (missing f).
Proof.
  destruct (loop_body_view opt) as [(f & F)|[(f & F)|F]].
  - rewrite (loop_body_short f) by exact F.
    destruct (parse_next_arg argv index (missing f)) eqn:P; simpl;
      [discriminate|].
    intros [= <-]. apply parse_next_arg_throw in P. eauto.
  - rewrite (loop_body_long f) by exact F.
    destruct (parse_equal_arg opt (missing f)) eqn:P; simpl;
      [discriminate|].
    intros [= <-]. apply parse_equal_arg_throw in P. eauto.
  - rewrite F. discriminate.
Qed.

(** A pass leaves [index] where it is or moves it by one, and moves it
    only past a token that is there. *)
Lemma loop_body_index argv index opt s s' index' :
  loop_body argv index opt s = Ok (s', index') ->
  index' = index \/
  (index' = index + 1 /\ index + 1 < List.length argv).
Proof.
  destruct (loop_body_view opt) as [(f & F)|[(f & F)|F]].
  - rewrite (loop_body_short f) by exact F.
    destruct (parse_next_arg argv index (missing f)) eqn:P; simpl;
      [|discriminate].
    intros [= <- <-]. right. split; [reflexivity|].
    apply parse_next_arg_ok in P. destruct P as (next & N & _).
    apply nth_error_Some. congruence.
  - rewrite (loop_body_long f) by exact F.
    destruct (parse_equal_arg opt (missing f)); simpl; [|discriminate].
    intros [= <- <-]. now left.
  - rewrite F. intros [= <- <-]. now left.
Qed.

(** A pass looks at no token but the current and the next one. *)
Lemma loop_body_local argv index argv' index' opt s :
  nth_error argv (index + 1) = nth_error argv' (index' + 1) ->
  relative index (loop_body argv index opt s) =
  relative index' (loop_body argv' index' opt s).
Proof.
  intros N. destruct (loop_body_view opt) as [(f & F)|[(f & F)|F]].
  - rewrite !(loop_body_short f) by exact F.
    unfold parse_next_arg. rewrite N.
    destruct (nth_error argv' (index' + 1)) as [next|]; [|reflexivity].
    destruct (negb _); [destruct (negb _)|]; simpl; try reflexivity.
    do 2 f_equal. lia.
  - rewrite !(loop_body_long f) by exact F.
    destruct (parse_equal_arg opt (missing f)); simpl; [|reflexivity].
    do 2 f_equal. lia.
  - rewrite !F. simpl. do 2 f_equal. lia.
Qed.

End LoopBody.

(* ================================================================== *)
(** ** The option loop *)

Section OptionLoop.

Lemma skipn_nth_error (argv : list string) index opt :
  nth_error argv index = Some opt ->
  skipn index argv = opt :: skipn (S index) argv.
Proof.
  revert index; induction argv as [|a argv IH]; intros [|index]; simpl;
    try discriminate.
  - now intros [= ->].
  - apply IH.
Qed.

Lemma scan_skip toks skip s :
  scan toks skip s = scan (skipn skip toks) 0 s.
Proof.
  revert skip; induction toks as [|a toks IH]; intros [|skip];
    try reflexivity.
  simpl skipn. rewrite <- IH. reflexivity.
Qed.

Lemma scan_cons opt rest s :
  scan (opt :: rest) 0 s =
  match loop_body (opt :: rest) 0 opt s with
  | Throw e => Throw e
  | Ok (s', index') => scan rest index' s'
  end.
Proof. reflexivity. Qed.

(** A pass at [index] as seen on the tokens from [index] on. *)
Lemma loop_body_suffix argv index opt s :
  nth_error argv index = Some opt ->
  loop_body (skipn index argv) 0 opt s =
  relative index (loop_body argv index opt s).
Proof.
  intros N.
  assert (R : relative 0 (loop_body (skipn index argv) 0 opt s) =
              relative index (loop_body argv index opt s)).
  { apply loop_body_local. rewrite nth_error_skipn. f_equal. }
  rewrite <- R. destruct (loop_body (skipn index argv) 0 opt s) as [[s' k]|e];
    simpl; [|reflexivity].
  now rewrite Nat.sub_0_r.
Qed.

Lemma scan_pass argv index opt s s' index' :
  nth_error argv index = Some opt ->
  loop_body argv index opt s = Ok (s', index') ->
  scan (skipn index argv) 0 s = scan (skipn (S index') argv) 0 s'.
Proof.
  intros N L. pose proof (loop_body_suffix _ _ _ s N) as R.
  rewrite L in R. simpl in R.
  rewrite (skipn_nth_error _ _ _ N) in *. rewrite scan_cons, R.
  rewrite scan_skip, skipn_skipn. f_equal. f_equal.
  apply loop_body_index in L. lia.
Qed.

Lemma scan_throw argv index opt s e :
  nth_error argv index = Some opt ->
  loop_body argv index opt s = Throw e ->
  scan (skipn index argv) 0 s = Throw e.
Proof.
  intros N L. pose proof (loop_body_suffix _ _ _ s N) as R.
  rewrite L in R. simpl in R.
  rewrite (skipn_nth_error _ _ _ N) in *. now rewrite scan_cons, R.
Qed.

(** With as many passes allowed as there are tokens left, the loop ends,
    and with the result of the left-to-right scan. *)
Lemma parse_loop_scan fuel argv index s :
  List.length argv <= index + fuel ->
  parse_loop fuel argv index s = Some (scan (skipn index argv) 0 s).
Proof.
  revert index s; induction fuel as [|fuel IH]; intros index s Hlen.
  - assert (N : nth_error argv index = None) by (apply nth_error_None; lia).
    simpl. rewrite N. rewrite skipn_all2 by lia. reflexivity.
  - simpl. destruct (nth_error argv index) as [opt|] eqn:N.
    + destruct (loop_body argv index opt s) as [[s' index']|e] eqn:L.
      * rewrite (scan_pass _ _ _ _ _ _ N L). apply IH.
        apply loop_body_index in L. lia.
      * now rewrite (scan_throw _ _ _ _ _ N L).
    + apply nth_error_None in N. rewrite skipn_all2 by lia. reflexivity.
Qed.

Lemma parse_args_scan argv :
  parse_args argv = Some (scan (tl argv) 0 no_options).
Proof.
  unfold parse_args. rewrite parse_loop_scan by lia.
  now destruct argv.
Qed.

(** The passes the loop makes lead from every visited position to the
    same end. *)
Lemma visits_scan argv index s :
  visits argv index s ->
  scan (tl argv) 0 no_options = scan (skipn index argv) 0 s.
Proof.
  induction 1 as [|index opt s s' index' V IH N L].
  - now destruct argv.
  - rewrite IH. now apply scan_pass with opt.
Qed.

Lemma visits_positive argv index s : visits argv index s -> 1 <= index.
Proof. induction 1; lia. Qed.

(** The index at the end of a pass does not depend on the locals. *)
Lemma loop_body_index_locals argv index opt s1 s2 s1' s2' i1 i2 :
  loop_body argv index opt s1 = Ok (s1', i1) ->
  loop_body argv index opt s2 = Ok (s2', i2) ->
  i1 = i2.
Proof.
  destruct (loop_body_view opt) as [(f & F)|[(f & F)|F]].
  - rewrite !(loop_body_short f) by exact F.
    destruct (parse_next_arg argv index (missing f)); simpl; congruence.
  - rewrite !(loop_body_long f) by exact F.
    destruct (parse_equal_arg opt (missing f)); simpl; congruence.
  - rewrite !F. congruence.
Qed.

(** Between a visited position and the one that follows it, no position
    is visited. *)
Lemma visits_gap argv :
  forall later index opt s s' index' t,
    visits argv later t ->
    visits argv index s ->
    nth_error argv index = Some opt ->
    loop_body argv index opt s = Ok (s', index') ->
    index < later -> S index' <= later.
Proof.
  induction later as [later IH] using lt_wf_ind.
  intros index opt s s' index' t Vl Vi N L Hlt.
  inversion Vl as [|k optk sk sk' k' Vk Nk Lk]; subst.
  - apply visits_positive in Vi. lia.
  - pose proof (loop_body_index _ _ _ _ _ _ Lk) as Hk.
    pose proof (loop_body_index _ _ _ _ _ _ L) as Hi.
    destruct (Nat.lt_trichotomy index k) as [Hik|[->|Hki]].
    + assert (S index' <= k); [|lia].
      apply (IH k ltac:(lia) index opt s s' index' sk); auto.
    + rewrite N in Nk; injection Nk as <-.
      rewrite (loop_body_index_locals _ _ _ _ _ _ _ _ _ L Lk). lia.
    + assert (S k' <= index); [|lia].
      apply (IH index ltac:(lia) k optk sk t k' s); auto.
Qed.

End OptionLoop.

(* ================================================================== *)
(** ** Properties of the parser and the builder *)

Section Fields.

Lemma field_eq_dec (f g : field) : {f = g} + {f <> g}.
Proof. decide equality. Defined.

Lemma get_set_same f v s : get f (set f v s) = v.
Proof. destruct f; reflexivity. Qed.

Lemma get_set_other f g v s : g <> f -> get g (set f v s) = get g s.
Proof. destruct f, g; intros H; try reflexivity; now elim H. Qed.

Lemma long_form_no_equal f : ~ occurs "=" (long_form f).
Proof. apply find_none. destruct f; reflexivity. Qed.

(** The test the code makes on a long form, and [is_long]. *)
Lemma is_long_prefix f tok :
  is_long f tok <->
  StdString.substr tok 0 (Some (String.length (long_form f))) = long_form f.
Proof.
  split.
  - intros (rest & ->). apply substring_append.
  - intros H. apply prefix_is_long. now apply String.eqb_eq.
Qed.

Lemma parse_equal_arg_ok arg errMsg a :
  parse_equal_arg arg errMsg = Ok a ->
  exists name value,
    arg = name ++ String "=" value /\ ~ occurs "=" name /\
    trim value <> "" /\ a = trim value.
Proof.
  intros H. destruct (StdString.find arg "=") as [pos|] eqn:F.
  - destruct (find_some _ _ _ F) as (name & value & -> & Hno & _).
    rewrite parse_equal_arg_split in H by exact Hno.
    exists name, value. destruct (StdString.empty (trim value)) eqn:E;
      [discriminate|].
    apply empty_false in E. injection H as <-. auto.
  - unfold parse_equal_arg in H. rewrite F in H. discriminate.
Qed.

End Fields.

(** C9.  Parsing [-d sales -U alice -h db.internal -p 5433 -t 5] (after
    any program name) succeeds, and the connection string built from the
    result is [dbname=sales user=alice host=db.internal port=5433
    connect_timeout=5 ], with the one trailing space. *)
Theorem roundtrip_sales_alice (prog : string) :
  exists spec,
    parse_args [prog; "-d"; "sales"; "-U"; "alice"; "-h"; "db.internal";
                "-p"; "5433"; "-t"; "5"] = Some (Ok spec) /\
    build_connstr spec =
    "dbname=sales user=alice host=db.internal port=5433 connect_timeout=5 ".
Proof.
  eexists. split.
  - rewrite parse_args_scan. vm_compute. reflexivity.
  - vm_compute. reflexivity.
Qed.

(** C6.  The builder renders the six fields in the order dbname, user,
    hostaddr, host, port, connect_timeout, each present one as
    [key=value] followed by a space and nothing for an empty one; it is a
    function of the fields alone, so the order of the options on the
    command line plays no part; with no field set it renders the empty
    string. *)
Theorem build_connstr_fixed_order (s : ConnSpec) :
  build_connstr s =
  render_pairs [("dbname", database s); ("user", username s);
                ("hostaddr", hostaddr s); ("host", host s);
                ("port", port s); ("connect_timeout", timeout s)]
  /\ build_connstr no_options = "".
Proof.
  split; [|reflexivity].
  unfold build_connstr, is_empty, render_pairs.
  destruct (StdString.empty (database s)), (StdString.empty (username s)),
    (StdString.empty (hostaddr s)), (StdString.empty (host s)),
    (StdString.empty (port s)), (StdString.empty (timeout s));
    cbn [negb];
    repeat (rewrite ?append_assoc, ?append_nil_r; cbn [append]);
    reflexivity.
Qed.

(** C3.  At a short-form option the pass fails exactly when there is no
    next token, or the next token begins with [-], or it trims to the
    empty string, and then with the error that names the field; otherwise
    the trimmed next token becomes the value of the field, and the next
    pass of the loop is two positions further on. *)
Theorem short_form_takes_next_token argv index f sh s :
  short_form f = Some sh ->
  nth_error argv index = Some sh ->
  (loop_body argv index sh s = Throw (OutOfRange (missing f)) <->
   nth_error argv (index + 1) = None \/
   exists next, nth_error argv (index + 1) = Some next /\
                (begins_with "-" next \/ trim next = "")) /\
  (forall e, loop_body argv index sh s = Throw e ->
             e = OutOfRange (missing f)) /\
  (forall next,
      nth_error argv (index + 1) = Some next ->
      ~ begins_with "-" next -> trim next <> "" ->
      loop_body argv index sh s = Ok (set f (trim next) s, index + 1) /\
      forall fuel,
        parse_loop (S fuel) argv index s =
        parse_loop fuel argv (index + 2) (set f (trim next) s)).
Proof.
  intros F N. rewrite (loop_body_short f) by exact F.
  split; [|split].
  - rewrite <- (parse_next_arg_fails argv index (missing f)).
    destruct (parse_next_arg argv index (missing f)) as [a|e] eqn:P; simpl.
    + split; discriminate.
    + split; intros [= ->]; reflexivity.
  - intros e. destruct (parse_next_arg argv index (missing f)) as [a|e'] eqn:P;
      simpl; [discriminate|].
    intros [= <-]. now apply parse_next_arg_throw in P.
  - intros next Nn Hd Ht.
    assert (P : parse_next_arg argv index (missing f) = Ok (trim next)).
    { apply parse_next_arg_ok. now exists next. }
    rewrite P. simpl. split; [reflexivity|].
    intros fuel. cbn [parse_loop]. rewrite N.
    rewrite (loop_body_short f) by exact F. rewrite P. simpl.
    f_equal. lia.
Qed.

Lemma short_form_takes_next_token_witness :
  loop_body ["pg_check_conn"; "-d"; " sales "] 1 "-d" no_options =
  Ok (set Database "sales" no_options, 2).
Proof.
  refine (proj1 (proj2 (proj2
    (short_form_takes_next_token ["pg_check_conn"; "-d"; " sales "] 1
       Database "-d" no_options eq_refl eq_refl)) " sales " eq_refl _ _)).
  - intros (rest & H). discriminate.
  - discriminate.
Defined.

(** C4.  At a long-form option the pass fails exactly when the token has
    no [=] or what follows its first [=] trims to the empty string, and
    then with the error that names the field; otherwise what follows the
    first [=], trimmed, becomes the value of the field, and the index
    stays on the token. *)
Theorem long_form_takes_text_after_equal argv index f tok s :
  is_long f tok ->
  (loop_body argv index tok s = Throw (RuntimeError (missing f)) <->
   ~ occurs "=" tok \/
   exists name value, tok = name ++ String "=" value /\
                      ~ occurs "=" name /\ trim value = "") /\
  (forall e, loop_body argv index tok s = Throw e ->
             e = RuntimeError (missing f)) /\
  (forall name value,
      tok = name ++ String "=" value -> ~ occurs "=" name ->
      trim value <> "" ->
      loop_body argv index tok s = Ok (set f (trim value) s, index)).
Proof.
  intros L. rewrite (loop_body_long f) by exact L.
  split; [|split].
  - split.
    + destruct (StdString.find tok "=") as [pos|] eqn:F.
      * destruct (find_some _ _ _ F) as (name & value & -> & Hno & _).
        rewrite parse_equal_arg_split by exact Hno.
        destruct (StdString.empty (trim value)) eqn:E; simpl;
          [|discriminate].
        intros _. right. exists name, value. apply empty_true in E. auto.
      * intros _. left. now apply find_none.
    + intros [H|(name & value & -> & Hno & Ht)].
      * now rewrite parse_equal_arg_no_equal.
      * rewrite parse_equal_arg_split by exact Hno.
        apply empty_true in Ht. now rewrite Ht.
  - intros e. destruct (parse_equal_arg tok (missing f)) as [a|e'] eqn:P;
      simpl; [discriminate|].
    intros [= <-]. now apply parse_equal_arg_throw in P.
  - intros name value -> Hno Ht.
    rewrite parse_equal_arg_split by exact Hno.
    apply empty_false in Ht. now rewrite Ht.
Qed.

Lemma long_form_takes_text_after_equal_witness :
  loop_body ["pg_check_conn"; "--dbname= sales"] 1 "--dbname= sales"
    no_options = Ok (set Database "sales" no_options, 1).
Proof.
  refine (proj2 (proj2
    (long_form_takes_text_after_equal ["pg_check_conn"; "--dbname= sales"] 1
       Database "--dbname= sales" no_options _)) "--dbname" " sales"
       eq_refl _ _).
  - now exists "= sales".
  - apply find_none. reflexivity.
  - discriminate.
Defined.

(* ================================================================== *)
(** ** What a successful parse leaves in the fields *)

Section Invariant.

(** A pass either leaves the locals alone or stores a non-empty,
    trimmed string in one of them. *)
Lemma loop_body_stores argv index opt s s' index' :
  loop_body argv index opt s = Ok (s', index') ->
  s' = s \/ exists f v, s' = set f v s /\ v <> "" /\ trimmed v.
Proof.
  destruct (loop_body_view opt) as [(f & F)|[(f & F)|F]].
  - rewrite (loop_body_short f) by exact F.
    destruct (parse_next_arg argv index (missing f)) as [a|] eqn:P; simpl;
      [|discriminate].
    intros [= <- <-]. right. exists f, a.
    apply parse_next_arg_ok in P. destruct P as (next & _ & _ & Hne & ->).
    repeat split; auto; apply trim_trimmed.
  - rewrite (loop_body_long f) by exact F.
    destruct (parse_equal_arg opt (missing f)) as [a|] eqn:P; simpl;
      [|discriminate].
    intros [= <- <-]. right. exists f, a.
    apply parse_equal_arg_ok in P.
    destruct P as (name & value & _ & _ & Hne & ->).
    repeat split; auto; apply trim_trimmed.
  - rewrite F. intros [= <- <-]. now left.
Qed.

(** What every pass preserves holds of the result of the scan. *)
Lemma scan_preserves (P : ConnSpec -> Prop) :
  (forall argv index opt s s' index',
      P s -> loop_body argv index opt s = Ok (s', index') -> P s') ->
  forall toks skip s spec, P s -> scan toks skip s = Ok spec -> P spec.
Proof.
  intros Hstep. induction toks as [|opt toks IH]; intros skip s spec Hs.
  - destruct skip; simpl; intros [= <-]; exact Hs.
  - destruct skip as [|k].
    + rewrite scan_cons.
      destruct (loop_body (opt :: toks) 0 opt s) as [[s' k]|e] eqn:L;
        [|discriminate].
      apply IH. exact (Hstep _ _ _ _ _ _ Hs L).
    + simpl. now apply IH.
Qed.

Lemma scan_trimmed toks skip s spec :
  (forall f, get f s = "" \/ (get f s <> "" /\ trimmed (get f s))) ->
  scan toks skip s = Ok spec ->
  forall f, get f spec = "" \/ (get f spec <> "" /\ trimmed (get f spec)).
Proof.
  apply (scan_preserves
    (fun s => forall f, get f s = "" \/ (get f s <> "" /\ trimmed (get f s)))).
  clear. intros argv index opt s s' index' Hs L g.
  destruct (loop_body_stores _ _ _ _ _ _ L) as [->|(f & v & -> & Hv & Ht)];
    [apply Hs|].
  destruct (field_eq_dec g f) as [->|Hgf].
  - rewrite get_set_same. now right.
  - rewrite get_set_other by exact Hgf. apply Hs.
Qed.

(** A field once set is never emptied again. *)
Lemma scan_keeps_set toks skip s spec f :
  get f s <> "" -> scan toks skip s = Ok spec -> get f spec <> "".
Proof.
  apply (scan_preserves (fun s => get f s <> "")).
  clear. intros argv index opt s s' index' Hs L.
  destruct (loop_body_stores _ _ _ _ _ _ L) as [->|(g & v & -> & Hv & Ht)];
    [exact Hs|].
  destruct (field_eq_dec f g) as [->|Hfg].
  - now rewrite get_set_same.
  - now rewrite get_set_other.
Qed.

(** A pass that moves the index does so past a token that does not
    begin with a dash. *)
Lemma loop_body_moved argv index opt s s' :
  loop_body argv index opt s = Ok (s', index + 1) ->
  exists next, nth_error argv (index + 1) = Some next /\
               ~ begins_with "-" next.
Proof.
  destruct (loop_body_view opt) as [(f & F)|[(f & F)|F]].
  - rewrite (loop_body_short f) by exact F.
    destruct (parse_next_arg argv index (missing f)) as [a|] eqn:P; simpl;
      [|discriminate].
    intros _. apply parse_next_arg_ok in P.
    destruct P as (next & N & Hd & _). now exists next.
  - rewrite (loop_body_long f) by exact F.
    destruct (parse_equal_arg opt (missing f)); simpl; [|discriminate].
    intros [= _ H]. lia.
  - rewrite F. intros [= _ H]. lia.
Qed.

(** When the parse succeeds, every token that begins with a dash is
    looked at by a pass of the loop of its own. *)
Lemma dash_tokens_visited argv spec :
  parse_args argv = Some (Ok spec) ->
  forall index,
    1 <= index -> index < List.length argv ->
    (exists s, visits argv index s) \/
    (exists tok, nth_error argv index = Some tok /\ ~ begins_with "-" tok).
Proof.
  intros Hok. rewrite parse_args_scan in Hok. injection Hok as Hok.
  assert (Step : forall index s,
             visits argv index s -> index < List.length argv ->
             exists opt s' index',
               nth_error argv index = Some opt /\
               loop_body argv index opt s = Ok (s', index')).
  { intros index s V Hlt.
    destruct (nth_error argv index) as [opt|] eqn:N.
    2:{ apply nth_error_None in N. lia. }
    destruct (loop_body argv index opt s) as [[s' index']|e] eqn:L.
    - now exists opt, s', index'.
    - rewrite (visits_scan _ _ _ V) in Hok.
      rewrite (scan_throw _ _ _ _ _ N L) in Hok. discriminate. }
  assert (Both : forall index,
             1 <= index -> index < List.length argv ->
             (exists s, visits argv index s) \/
             (2 <= index /\ exists s opt s',
                 visits argv (index - 1) s /\
                 nth_error argv (index - 1) = Some opt /\
                 loop_body argv (index - 1) opt s = Ok (s', index))).
  { induction index as [|index IH]; intros H1 Hlt; [lia|].
    destruct (Nat.eq_dec index 0) as [->|Hpos].
    { left. exists no_options. constructor. }
    destruct IH as [(s & V)|(_ & s & opt & s' & V & N & L)]; try lia.
    - destruct (Step index s V) as (opt & s' & index' & N & L); [lia|].
      destruct (loop_body_index _ _ _ _ _ _ L) as [->|[-> _]].
      + left. exists s'. now apply visits_next with index opt s.
      + right. split; [lia|]. exists s, opt, s'.
        replace (S index - 1) with index by lia.
        replace (S index) with (index + 1) by lia. auto.
    - left. exists s'. now apply visits_next with (index - 1) opt s. }
  intros index H1 Hlt.
  destruct (Both index H1 Hlt) as [V|(H2 & s & opt & s' & V & N & L)];
    [now left | right].
  replace (Ok (s', index)) with (Ok (s', index - 1 + 1)) in L
    by (do 2 f_equal; lia).
  apply loop_body_moved in L. destruct L as (next & Nn & Hd).
  replace (index - 1 + 1) with index in Nn by lia. now exists next.
Qed.

End Invariant.

Section WholeParse.

(** On a successful parse every visited pass ends without a throw, and
    the scan of the rest gives the final locals. *)
Lemma visited_pass_ok argv spec index s opt :
  parse_args argv = Some (Ok spec) ->
  visits argv index s ->
  nth_error argv index = Some opt ->
  exists s' index',
    loop_body argv index opt s = Ok (s', index') /\
    scan (skipn (S index') argv) 0 s' = Ok spec.
Proof.
  intros Hok V N. rewrite parse_args_scan in Hok. injection Hok as Hok.
  rewrite (visits_scan _ _ _ V) in Hok.
  destruct (loop_body argv index opt s) as [[s' index']|e] eqn:L.
  - exists s', index'. split; [reflexivity|].
    now rewrite <- (scan_pass _ _ _ _ _ _ N L).
  - rewrite (scan_throw _ _ _ _ _ N L) in Hok. discriminate.
Qed.

Lemma dash_token_visited argv spec index tok :
  parse_args argv = Some (Ok spec) ->
  1 <= index -> nth_error argv index = Some tok -> begins_with "-" tok ->
  exists s, visits argv index s.
Proof.
  intros Hok H1 N Hd.
  assert (Hlt : index < List.length argv).
  { apply nth_error_Some. congruence. }
  destruct (dash_tokens_visited _ _ Hok index H1 Hlt)
    as [V|(tok' & N' & Hd')]; [exact V|].
  rewrite N in N'. injection N' as <-. contradiction.
Qed.

End WholeParse.

(** C5.  When the parse succeeds, every field is empty (the option was
    not given) or holds a non-empty string that neither starts nor ends
    with whitespace; every option on the command line, short or long,
    had a value that does not trim to the empty string and left its field
    set, so a blank value never ends in a successful parse; and a pass of
    the loop stores nothing but a non-empty, trimmed string. *)
Theorem parsed_fields_nonempty_trimmed argv spec :
  parse_args argv = Some (Ok spec) ->
  (forall f, get f spec = "" \/
             (get f spec <> "" /\ trimmed (get f spec))) /\
  (forall index f sh,
      1 <= index -> nth_error argv index = Some sh ->
      short_form f = Some sh ->
      exists next, nth_error argv (index + 1) = Some next /\
                   trim next <> "" /\ get f spec <> "") /\
  (forall index f tok,
      1 <= index -> nth_error argv index = Some tok -> is_long f tok ->
      exists name value,
        tok = name ++ String "=" value /\ ~ occurs "=" name /\
        trim value <> "" /\ get f spec <> "") /\
  (forall args index opt s s' index',
      loop_body args index opt s = Ok (s', index') ->
      s' = s \/ exists f v, s' = set f v s /\ v <> "" /\ trimmed v).
Proof.
  intros Hok. split; [|split; [|split]]; [| | |apply loop_body_stores].
  - pose proof Hok as H. rewrite parse_args_scan in H. injection H as H.
    apply (scan_trimmed (tl argv) 0 no_options spec); [|exact H].
    intros f. left. now destruct f.
  - intros index f sh H1 N F.
    destruct (dash_token_visited _ _ _ _ Hok H1 N (short_form_dash _ _ F))
      as (s & V).
    destruct (visited_pass_ok _ _ _ _ _ Hok V N) as (s' & index' & L & R).
    rewrite (loop_body_short f) in L by exact F.
    destruct (parse_next_arg argv index (missing f)) as [a|] eqn:P;
      simpl in L; [|discriminate].
    injection L as <- <-. apply parse_next_arg_ok in P.
    destruct P as (next & Nn & _ & Hne & ->).
    exists next. repeat split; auto.
    apply (scan_keeps_set _ _ _ _ f) in R; [exact R|].
    now rewrite get_set_same.
  - intros index f tok H1 N F.
    destruct (dash_token_visited _ _ _ _ Hok H1 N (is_long_dash _ _ F))
      as (s & V).
    destruct (visited_pass_ok _ _ _ _ _ Hok V N) as (s' & index' & L & R).
    rewrite (loop_body_long f) in L by exact F.
    destruct (parse_equal_arg tok (missing f)) as [a|] eqn:P;
      simpl in L; [|discriminate].
    injection L as <- <-. apply parse_equal_arg_ok in P.
    destruct P as (name & value & -> & Hno & Hne & ->).
    exists name, value. repeat split; auto.
    apply (scan_keeps_set _ _ _ _ f) in R; [exact R|].
    now rewrite get_set_same.
Qed.

Lemma parsed_fields_nonempty_trimmed_witness :
  (get Host (mkConnSpec "sales" "" "db.internal" "" "" "") = "" \/
   (get Host (mkConnSpec "sales" "" "db.internal" "" "" "") <> "" /\
    trimmed (get Host (mkConnSpec "sales" "" "db.internal" "" "" "")))) /\
  (exists next,
      nth_error ["pg_check_conn"; "-d"; " sales"; "--hostname=db.internal "]
        (1 + 1) = Some next /\
      trim next <> "" /\
      get Database (mkConnSpec "sales" "" "db.internal" "" "" "") <> "").
Proof.
  pose proof (parsed_fields_nonempty_trimmed
    ["pg_check_conn"; "-d"; " sales"; "--hostname=db.internal "]
    (mkConnSpec "sales" "" "db.internal" "" "" "") eq_refl) as (H1 & H2 & _).
  split.
  - exact (H1 Host).
  - exact (H2 1 Database "-d" (le_n 1) eq_refl eq_refl).
Defined.

(** C10.  When a pass of the loop is at a short-form option whose next
    token is accepted as its value, that pass sets the field of the
    option and no other, the following pass is two positions further on,
    and no pass of the loop is ever at the position of the value. *)
Theorem value_token_never_matched argv index s f sh next :
  visits argv index s ->
  nth_error argv index = Some sh ->
  short_form f = Some sh ->
  nth_error argv (index + 1) = Some next ->
  ~ begins_with "-" next ->
  trim next <> "" ->
  loop_body argv index sh s = Ok (set f (trim next) s, index + 1) /\
  visits argv (index + 2) (set f (trim next) s) /\
  (forall t, ~ visits argv (index + 1) t) /\
  (forall g, g <> f -> get g (set f (trim next) s) = get g s).
Proof.
  intros V N F Nn Hd Ht.
  assert (L : loop_body argv index sh s = Ok (set f (trim next) s, index + 1)).
  { rewrite (loop_body_short f) by exact F.
    assert (P : parse_next_arg argv index (missing f) = Ok (trim next)).
    { apply parse_next_arg_ok. now exists next. }
    now rewrite P. }
  repeat split.
  - exact L.
  - replace (index + 2) with (S (index + 1)) by lia.
    now apply visits_next with index sh s.
  - intros t Vt.
    pose proof (visits_gap argv (index + 1) index sh s _ _ t Vt V N L).
    lia.
  - intros g Hg. now apply get_set_other.
Qed.

Lemma value_token_never_matched_witness :
  parse_args ["pg_check_conn"; "-d"; "port"] =
    Some (Ok (mkConnSpec "port" "" "" "" "" "")) /\
  forall t, ~ visits ["pg_check_conn"; "-d"; "port"] 2 t.
Proof.
  split; [vm_compute; reflexivity|].
  refine (proj1 (proj2 (proj2
    (value_token_never_matched ["pg_check_conn"; "-d"; "port"] 1
       no_options Database "-d" "port" (visits_first _) eq_refl eq_refl
       eq_refl _ _)))).
  - intros (rest & H). discriminate.
  - discriminate.
Defined.

(* ================================================================== *)
(** ** Short form against long form *)

Section TwoForms.

Lemma relative_0 r : relative 0 r = r.
Proof. destruct r as [[s k]|e]; simpl; [|reflexivity]. now rewrite Nat.sub_0_r. Qed.

(** A pass whose next token begins with a dash does not depend on which
    such token it is. *)
Lemma loop_body_before_dash argv argv' opt s t t' :
  nth_error argv 1 = Some t -> begins_with "-" t ->
  nth_error argv' 1 = Some t' -> begins_with "-" t' ->
  loop_body argv 0 opt s = loop_body argv' 0 opt s.
Proof.
  intros N D N' D'. destruct (loop_body_view opt) as [(f & F)|[(f & F)|F]].
  - rewrite !(loop_body_short f) by exact F.
    assert (P : forall l u, nth_error l 1 = Some u -> begins_with "-" u ->
                parse_next_arg l 0 (missing f) = Throw (OutOfRange (missing f))).
    { intros l u Hn Hd. apply parse_next_arg_fails. right. exists u. auto. }
    now rewrite (P _ _ N D), (P _ _ N' D').
  - now rewrite !(loop_body_long f) by exact F.
  - now rewrite !F.
Qed.

(** Two token lists that start with a dash token and are scanned to the
    same outcome stay so behind any common tokens. *)
Lemma scan_behind a A b B :
  begins_with "-" a -> begins_with "-" b ->
  (forall s, outcome (scan (a :: A) 0 s) = outcome (scan (b :: B) 0 s)) ->
  forall pre skip s,
    skip <= List.length pre ->
    outcome (scan (pre ++ a :: A) skip s) =
    outcome (scan (pre ++ b :: B) skip s).
Proof.
  intros Da Db Base. induction pre as [|x pre IH]; intros skip s Hskip.
  - destruct skip; [apply Base | simpl in Hskip; lia].
  - destruct skip as [|k]; [|simpl; apply IH; simpl in Hskip; lia].
    cbn [app]. rewrite !scan_cons.
    assert (E : loop_body (x :: pre ++ a :: A) 0 x s =
                loop_body (x :: pre ++ b :: B) 0 x s).
    { destruct pre as [|y pre].
      - now apply loop_body_before_dash with a b.
      - rewrite <- (relative_0 (loop_body (x :: (y :: pre) ++ a :: A) 0 x s)).
        rewrite <- (relative_0 (loop_body (x :: (y :: pre) ++ b :: B) 0 x s)).
        now apply loop_body_local. }
    rewrite <- E.
    destruct (loop_body (x :: pre ++ a :: A) 0 x s) as [[s' k]|e] eqn:L;
      [|reflexivity].
    apply IH. destruct (loop_body_index _ _ _ _ _ _ L) as [->|[-> _]]; [lia|].
    destruct pre as [|y pre]; [|simpl; lia].
    apply loop_body_moved in L. destruct L as (next & N & Hd).
    injection N as <-. contradiction.
Qed.

(** Scanned from the option on, the two forms of an option with the same
    value, one that does not begin with a dash, have the same outcome. *)
Lemma scan_two_forms f sh v post s :
  short_form f = Some sh -> ~ begins_with "-" v ->
  outcome (scan (sh :: v :: post) 0 s) =
  outcome (scan ((long_form f ++ String "=" v) :: post) 0 s).
Proof.
  intros F Hd. rewrite !scan_cons.
  rewrite (loop_body_short f) by exact F.
  rewrite (loop_body_long f) by (now exists (String "=" v)).
  rewrite parse_equal_arg_split by apply long_form_no_equal.
  unfold parse_next_arg. cbn [nth_error Nat.add].
  destruct (Ascii.eqb (char0 v) "-") eqn:D.
  { now apply front_dash in D. }
  cbn [negb]. destruct (StdString.empty (trim v)); reflexivity.
Qed.

End TwoForms.

(** C7, as the code has it.  For a field with both forms and a value
    that does not begin with a dash, the short form followed by the value
    and the long form with the value after [=], at the same place of
    otherwise equal command lines, give the same fields, or both a parse
    error with the same message. *)
Theorem short_and_long_form_agree prog pre post f sh v :
  short_form f = Some sh ->
  ~ begins_with "-" v ->
  option_map outcome (parse_args (prog :: pre ++ sh :: v :: post)) =
  option_map outcome
    (parse_args (prog :: pre ++ (long_form f ++ String "=" v) :: post)).
Proof.
  intros F Hd. rewrite !parse_args_scan. cbn [tl option_map]. f_equal.
  apply scan_behind; [| |intros s|lia].
  - now apply short_form_dash with f.
  - apply is_long_dash with f. now exists (String "=" v).
  - now apply scan_two_forms.
Qed.

Lemma short_and_long_form_agree_witness :
  option_map outcome
    (parse_args ["pg_check_conn"; "-U"; "alice"; "-p"; " 5433"; "-t"; "5"]) =
  option_map outcome
    (parse_args ["pg_check_conn"; "-U"; "alice"; "--port= 5433"; "-t"; "5"]).
Proof.
  refine (short_and_long_form_agree "pg_check_conn" ["-U"; "alice"]
            ["-t"; "5"] Port "-p" " 5433" eq_refl _).
  intros (rest & H). discriminate.
Defined.

(** C7, as stated, fails on a value that begins with a dash: the short
    form rejects it, the long form stores it. *)
Lemma short_and_long_form_differ_on_dash_value :
  short_form Timeout = Some "-t" /\
  long_form Timeout ++ String "=" "-1" = "--timeout=-1" /\
  parse_args ["pg_check_conn"; "-t"; "-1"] =
    Some (Throw (OutOfRange "missing timeout argument")) /\
  parse_args ["pg_check_conn"; "--timeout=-1"] =
    Some (Ok (mkConnSpec "" "" "" "" "" "-1")).
Proof. repeat split. Qed.

(* ================================================================== *)
(** ** Reporting *)

Section Reporting.

Variable PGconn : Type.
Variable PQconnectdb : string -> option PGconn.
Variable PQstatus : PGconn -> Z.
Variable PQerrorMessage : option PGconn -> string.
Variable getenv : string -> option string.

Local Notation "'MAIN'" :=
  (main PGconn PQconnectdb PQstatus PQerrorMessage getenv).
Local Notation "'RUN'" :=
  (run PGconn PQconnectdb PQstatus PQerrorMessage getenv).

(** The option loop throws only the two classes of the value parsers. *)
Lemma scan_throws toks skip s e :
  scan toks skip s = Throw e ->
  exists f, e = OutOfRange (missing f) \/ e = RuntimeError (missing f).
Proof.
  revert skip s; induction toks as [|opt toks IH]; intros skip s.
  - destruct skip; discriminate.
  - destruct skip as [|k]; [|simpl; apply IH].
    rewrite scan_cons.
    destruct (loop_body (opt :: toks) 0 opt s) as [[s' k]|e'] eqn:L.
    + apply IH.
    + intros [= <-]. now apply loop_body_throw in L.
Qed.

(** [main] returns on every argument vector. *)
Lemma main_total argv :
  MAIN argv = Some (RUN (scan (tl argv) 0 no_options)).
Proof. unfold main. now rewrite parse_args_scan. Qed.

Lemma run_parse_error e :
  (exists f, e = OutOfRange (missing f) \/ e = RuntimeError (missing f)) ->
  RUN (Throw e) = ([Stderr ("Error: " ++ what e ++ endl)], (-1)%Z).
Proof. intros (f & [->| ->]); reflexivity. Qed.

(** The debug logging writes one line or nothing. *)
Lemma debug_log_out connstr :
  (debug_requested getenv /\
   out PGconn (debug_log PGconn getenv connstr (initial PGconn)) =
   [Stdout ("Conn string: " ++ connstr ++ endl)]) \/
  (~ debug_requested getenv /\
   out PGconn (debug_log PGconn getenv connstr (initial PGconn)) = []).
Proof.
  unfold debug_log, debug_requested.
  destruct (getenv "PGDEBUG") as [value|].
  - destruct value as [|c value]; simpl.
    + right. split; [|reflexivity]. intros (v & [= <-] & (r & H)).
      discriminate.
    + destruct (Ascii.eqb_spec c "1") as [->|Hc].
      * left. split; [|reflexivity]. exists (String "1" value).
        split; [reflexivity | now exists value].
      * right. split; [|reflexivity]. intros (v & [= <-] & (r & H)).
        congruence.
  - right. split; [|reflexivity]. intros (v & H & _). discriminate.
Qed.

(** What a run does once the options are parsed. *)
Lemma run_probe spec :
  let connstr := build_connstr spec in
  let echo := out PGconn (debug_log PGconn getenv connstr (initial PGconn)) in
  RUN (Ok spec) =
  match PQconnectdb connstr with
  | None =>
      ((echo ++ [Connect connstr;
                 Stdout ("Error: " ++ PQerrorMessage None ++ endl)])%list,
       (-1)%Z)
  | Some h =>
      if Z.eqb (PQstatus h) CONNECTION_OK
      then ((echo ++ [Connect connstr; Finish])%list, 0%Z)
      else ((echo ++ [Connect connstr;
                      Stdout ("Error: " ++ PQerrorMessage (Some h) ++ endl);
                      Finish])%list, PQstatus h)
  end.
Proof.
  intros connstr echo. subst echo. unfold run, try_block, probe.
  fold connstr. cbn [conn out ret emit].
  destruct (PQconnectdb connstr) as [h|]; cbn [conn_failed].
  - destruct (Z.eqb (PQstatus h) CONNECTION_OK); cbn [negb];
      unfold handler, cleanup, emit; cbn [conn out ret];
      now rewrite <- ?app_assoc.
  - unfold handler, cleanup, emit; cbn [conn out ret].
    now rewrite <- ?app_assoc.
Qed.

(** C1.  [main] returns on every argument vector, and: a parse error
    goes to stderr as [Error: <msg>] with -1 returned; a failed
    connection goes to stdout as [Error: <msg>], with the status of the
    handle returned when there is one and -1 when there is none; a
    successful connection writes no such line and returns 0.  Any other
    exception that reaches the handlers goes to stderr with -1. *)
Theorem reporter_channel_and_code argv :
  (exists parsed,
      parse_args argv = Some parsed /\
      match parsed with
      | Throw e =>
          MAIN argv = Some ([Stderr ("Error: " ++ what e ++ endl)], (-1)%Z)
      | Ok spec =>
          let connstr := build_connstr spec in
          let echo :=
            out PGconn (debug_log PGconn getenv connstr (initial PGconn)) in
          match PQconnectdb connstr with
          | None =>
              MAIN argv =
              Some ((echo ++
                     [Connect connstr;
                      Stdout ("Error: " ++ PQerrorMessage None ++ endl)])%list,
                    (-1)%Z)
          | Some h =>
              if Z.eqb (PQstatus h) CONNECTION_OK
              then MAIN argv =
                   Some ((echo ++ [Connect connstr; Finish])%list, 0%Z)
              else MAIN argv =
                   Some ((echo ++
                          [Connect connstr;
                           Stdout ("Error: " ++ PQerrorMessage (Some h)
                                   ++ endl);
                           Finish])%list,
                         PQstatus h)
          end
      end) /\
  (forall msg st,
      handler PGconn PQstatus (OtherException msg) st =
      mkState PGconn (conn PGconn st) (-1)%Z
        (out PGconn st ++ [Stderr ("Error: " ++ msg ++ endl)])%list).
Proof.
  split; [|reflexivity].
  exists (scan (tl argv) 0 no_options). split; [apply parse_args_scan|].
  rewrite main_total.
  destruct (scan (tl argv) 0 no_options) as [spec|e] eqn:S.
  - cbv zeta. rewrite run_probe. cbv zeta.
    destruct (PQconnectdb (build_connstr spec)) as [h|]; [|reflexivity].
    destruct (Z.eqb (PQstatus h) CONNECTION_OK); reflexivity.
  - apply scan_throws in S. now rewrite run_parse_error.
Qed.

(** C8.  [main] returns on every argument vector; it returns 0 when the
    run succeeded, and otherwise it returns a value other than 0 and has
    written a line [Error: <msg>].  Any other exception that reaches the
    handlers also gives a line on stderr and a value other than 0. *)
Theorem failure_has_message_and_nonzero_code argv :
  (exists trace code,
      MAIN argv = Some (trace, code) /\
      ((succeeded PGconn PQconnectdb PQstatus argv /\ code = 0%Z) \/
       (~ succeeded PGconn PQconnectdb PQstatus argv /\
        code <> 0%Z /\ error_reported trace))) /\
  (forall msg st,
      ret PGconn (handler PGconn PQstatus (OtherException msg) st) <> 0%Z /\
      In (Stderr ("Error: " ++ msg ++ endl))
         (out PGconn (handler PGconn PQstatus (OtherException msg) st))).
Proof.
  split.
  2:{ intros msg st. split; [discriminate|]. simpl.
      apply in_or_app. right. now left. }
  rewrite main_total. pose proof (parse_args_scan argv) as P.
  destruct (scan (tl argv) 0 no_options) as [spec|e] eqn:S.
  - rewrite run_probe. cbv zeta.
    destruct (PQconnectdb (build_connstr spec)) as [h|] eqn:C.
    + destruct (Z.eqb_spec (PQstatus h) CONNECTION_OK) as [Hs|Hs].
      * do 2 eexists. split; [reflexivity|]. left. split; [|reflexivity].
        now exists spec, h.
      * do 2 eexists. split; [reflexivity|]. right. repeat split.
        -- intros (spec' & h' & P' & C' & Hs'). rewrite P in P'.
           injection P' as <-. rewrite C in C'. injection C' as <-.
           contradiction.
        -- exact Hs.
        -- exists (PQerrorMessage (Some h)). left.
           apply in_or_app. right. right. now left.
    + do 2 eexists. split; [reflexivity|]. right. repeat split.
      * intros (spec' & h' & P' & C' & _). rewrite P in P'.
        injection P' as <-. rewrite C in C'. discriminate.
      * discriminate.
      * exists (PQerrorMessage None). left.
        apply in_or_app. right. right. now left.
  - apply scan_throws in S. rewrite (run_parse_error _ S).
    do 2 eexists. split; [reflexivity|]. right. repeat split.
    + intros (spec' & h' & P' & _). rewrite P in P'. discriminate.
    + discriminate.
    + exists (what e). right. now left.
Qed.

(** C2, as the code has it.  When the options parse, the line
    [Conn string: <connstr>] is written to stdout, once and right before
    the call of [PQconnectdb], exactly when PGDEBUG is set and its value
    starts with the character [1]; otherwise the line is not written. *)
Theorem debug_echo_when_value_starts_with_1 argv spec :
  parse_args argv = Some (Ok spec) ->
  exists rest code,
    ~ In (Stdout ("Conn string: " ++ build_connstr spec ++ endl)) rest /\
    ((debug_requested getenv /\
      MAIN argv =
      Some (Stdout ("Conn string: " ++ build_connstr spec ++ endl)
              :: Connect (build_connstr spec) :: rest, code)) \/
     (~ debug_requested getenv /\
      MAIN argv = Some (Connect (build_connstr spec) :: rest, code))).
Proof.
  intros P. rewrite main_total. rewrite parse_args_scan in P.
  injection P as ->. rewrite run_probe. cbv zeta.
  assert (Tail : forall rest (code : Z),
    (forall ev, In ev rest ->
                ev = Finish \/ exists msg, ev = Stdout ("Error: " ++ msg ++ endl)) ->
    exists rest' code',
      ~ In (Stdout ("Conn string: " ++ build_connstr spec ++ endl)) rest' /\
      ((debug_requested getenv /\
        Some ((out PGconn (debug_log PGconn getenv (build_connstr spec)
                             (initial PGconn)) ++
               Connect (build_connstr spec) :: rest)%list, code) =
        Some (Stdout ("Conn string: " ++ build_connstr spec ++ endl)
                :: Connect (build_connstr spec) :: rest', code')) \/
       (~ debug_requested getenv /\
        Some ((out PGconn (debug_log PGconn getenv (build_connstr spec)
                             (initial PGconn)) ++
               Connect (build_connstr spec) :: rest)%list, code) =
        Some (Connect (build_connstr spec) :: rest', code')))).
  { intros rest code Hrest. exists rest, code. split.
    - intros Hin. destruct (Hrest _ Hin) as [H|(msg & H)]; discriminate H.
    - destruct (debug_log_out (build_connstr spec)) as [[D ->]|[D ->]];
        [left | right]; now split. }
  destruct (PQconnectdb (build_connstr spec)) as [h|];
    [destruct (Z.eqb (PQstatus h) CONNECTION_OK)|];
    apply Tail; intros ev Hin; cbn [In] in Hin;
    repeat (destruct Hin as [<-|Hin];
            [first [now left | right; eexists; reflexivity]|]);
    contradiction.
Qed.

End Reporting.

Lemma debug_echo_when_value_starts_with_1_witness :
  exists rest code,
    ~ In (Stdout ("Conn string: " ++
                  build_connstr (mkConnSpec "sales" "" "" "" "" "") ++ endl))
         rest /\
    ((debug_requested
        (fun name => if String.eqb name "PGDEBUG" then Some "1" else None) /\
      main unit (fun _ => Some tt) (fun _ => 0%Z) (fun _ => "")
        (fun name => if String.eqb name "PGDEBUG" then Some "1" else None)
        ["pg_check_conn"; "-d"; "sales"] =
      Some (Stdout ("Conn string: " ++
                    build_connstr (mkConnSpec "sales" "" "" "" "" "") ++ endl)
              :: Connect (build_connstr (mkConnSpec "sales" "" "" "" "" ""))
              :: rest, code)) \/
     (~ debug_requested
          (fun name => if String.eqb name "PGDEBUG" then Some "1" else None) /\
      main unit (fun _ => Some tt) (fun _ => 0%Z) (fun _ => "")
        (fun name => if String.eqb name "PGDEBUG" then Some "1" else None)
        ["pg_check_conn"; "-d"; "sales"] =
      Some (Connect (build_connstr (mkConnSpec "sales" "" "" "" "" ""))
              :: rest, code))).
Proof.
  exact (debug_echo_when_value_starts_with_1 unit (fun _ => Some tt)
           (fun _ => 0%Z) (fun _ => "")
           (fun name => if String.eqb name "PGDEBUG" then Some "1" else None)
           ["pg_check_conn"; "-d"; "sales"]
           (mkConnSpec "sales" "" "" "" "" "") eq_refl).
Defined.

(** C2, as stated, fails when PGDEBUG is [10]: the value is not the
    literal [1], and the connection string is echoed all the same. *)
Lemma debug_echo_on_value_10 :
  let getenv :=
    fun name => if String.eqb name "PGDEBUG" then Some "10" else None in
  getenv "PGDEBUG" = Some "10" /\
  main unit (fun _ => Some tt) (fun _ => 0%Z) (fun _ => "") getenv
    ["pg_check_conn"; "-d"; "sales"] =
  Some ([Stdout ("Conn string: dbname=sales " ++ endl);
         Connect "dbname=sales "; Finish], 0%Z).
Proof. split; reflexivity. Qed.

(* ================================================================== *)
(** ** The model at some inputs *)

Example trim_both_ends :
  trim (String HT " db one " ++ String CR endl) = "db one".
Proof. reflexivity. Qed.

Example trim_whitespace_only : trim (String " " (String VT (String FF ""))) = "".
Proof. reflexivity. Qed.

Example parse_missing_value :
  parse_args ["pg_check_conn"; "-d"] =
  Some (Throw (OutOfRange "missing database argument")).
Proof. reflexivity. Qed.

Example parse_value_looks_like_flag :
  parse_args ["pg_check_conn"; "-d"; "-U"; "alice"] =
  Some (Throw (OutOfRange "missing database argument")).
Proof. reflexivity. Qed.

Example parse_empty_long_value :
  parse_args ["pg_check_conn"; "--dbname="] =
  Some (Throw (RuntimeError "missing database argument")).
Proof. reflexivity. Qed.

Example parse_last_wins :
  parse_args ["pg_check_conn"; "-p"; "5432"; "--port=5433"] =
  Some (Ok (mkConnSpec "" "" "" "" "5433" "")).
Proof. reflexivity. Qed.

Example parse_unknown_ignored :
  parse_args ["pg_check_conn"; "--bogus"; "-h"; "db.internal"; "extra"] =
  Some (Ok (mkConnSpec "" "" "db.internal" "" "" "")).
Proof. reflexivity. Qed.

Example parse_prefix_match :
  parse_args ["pg_check_conn"; "--dbnamefoo=x"] =
  Some (Ok (mkConnSpec "x" "" "" "" "" "")).
Proof. reflexivity. Qed.

Example parse_value_spelling_option_word :
  parse_args ["pg_check_conn"; "-d"; "port"] =
  Some (Ok (mkConnSpec "port" "" "" "" "" "")).
Proof. reflexivity. Qed.

Example main_no_handle :
  main unit (fun _ => None) (fun _ => 0%Z) (fun _ => "no handle")
    (fun _ => None) ["pg_check_conn"] =
  Some ([Connect ""; Stdout ("Error: no handle" ++ endl)], (-1)%Z).
Proof. reflexivity. Qed.

Example main_bad_status :
  main unit (fun _ => Some tt) (fun _ => 1%Z) (fun _ => "refused")
    (fun _ => None) ["pg_check_conn"; "--hostaddr=10.0.0.7"; "-U"; "alice"] =
  Some ([Connect "user=alice hostaddr=10.0.0.7 ";
         Stdout ("Error: refused" ++ endl); Finish], 1%Z).
Proof. reflexivity. Qed.

Example main_parse_error :
  main unit (fun _ => Some tt) (fun _ => 0%Z) (fun _ => "")
    (fun _ => Some "1") ["pg_check_conn"; "--port"] =
  Some ([Stderr ("Error: missing port argument" ++ endl)], (-1)%Z).
Proof. reflexivity. Qed.

(* ================================================================== *)
(** ** More on trimming *)

Section TrimFacts.

Lemma ltrim_blank_prefix l t : blank l = true -> ltrim (l ++ t) = ltrim t.
Proof.
  induction l as [|c l IH]; [reflexivity|]. cbn [blank append].
  rewrite andb_true_iff. intros [Hc Hl]. rewrite ltrim_cons, Hc. auto.
Qed.

Lemma rtrim_blank_suffix t r : blank r = true -> rtrim (t ++ r) = rtrim t.
Proof.
  intros Hr. induction t as [|c t IH]; cbn [append].
  - now apply rtrim_blank.
  - rewrite !rtrim_cons, blank_append, Hr, andb_true_r, IH. reflexivity.
Qed.

Lemma last_char_append l t : t <> "" -> last_char (l ++ t) = last_char t.
Proof.
  intros Ht. induction l as [|c l IH]; [reflexivity|]. cbn [append].
  rewrite last_char_cons; [exact IH|]. destruct l; [exact Ht | discriminate].
Qed.

Lemma trim_wrapped l t r :
  blank l = true -> blank r = true -> trimmed t -> trim (l ++ t ++ r) = t.
Proof.
  intros Hl Hr [Hf Hlast]. unfold trim.
  rewrite <- append_assoc, (rtrim_blank_suffix _ _ Hr).
  destruct t as [|c t].
  - rewrite append_nil_r, (rtrim_blank _ Hl). reflexivity.
  - rewrite rtrim_fixed.
    + rewrite (ltrim_blank_prefix _ _ Hl). now apply ltrim_fixed.
    + intros d. rewrite last_char_append by discriminate. apply Hlast.
Qed.

Lemma trim_blank_prefix l t : blank l = true -> trim (l ++ t) = trim t.
Proof.
  intros Hl. destruct (trim_split t) as (l1 & r1 & Ht & Hl1 & Hr1).
  rewrite Ht at 1. rewrite <- append_assoc.
  apply trim_wrapped; auto using trim_trimmed.
  now rewrite blank_append, Hl, Hl1.
Qed.

Lemma char0_append a r : a <> "" -> char0 (a ++ r) = char0 a.
Proof. destruct a; [congruence | reflexivity]. Qed.

End TrimFacts.

(** X1.  [trim] takes away whitespace at the two ends and nothing else:
    the input is the result with whitespace-only strings before and after
    it, and the result neither starts nor ends with whitespace. *)
Theorem trim_strips_both_ends (str : string) :
  exists l r,
    str = l ++ trim str ++ r /\ blank l = true /\ blank r = true /\
    trimmed (trim str).
Proof.
  destruct (trim_split str) as (l & r & Hs & Hl & Hr).
  exists l, r. repeat split; auto; apply trim_trimmed.
Qed.

(** X2.  A string that neither starts nor ends with whitespace comes back
    unchanged from any whitespace wrapped around it; whitespace inside it
    is kept. *)
Theorem trim_of_wrapped (l t r : string) :
  blank l = true -> blank r = true -> trimmed t -> trim (l ++ t ++ r) = t.
Proof.
  intros Hl Hr [Hfirst Hlast]. unfold trim.
  rewrite <- append_assoc, (rtrim_blank_suffix _ _ Hr).
  destruct t as [|c t].
  - rewrite append_nil_r, (rtrim_blank _ Hl). reflexivity.
  - assert (Hkeep : rtrim (l ++ String c t) = l ++ String c t).
    { apply rtrim_fixed. intros d.
      rewrite last_char_append by discriminate. apply Hlast. }
    rewrite Hkeep, (ltrim_blank_prefix _ _ Hl).
    now apply ltrim_fixed.
Qed.

Lemma trim_of_wrapped_witness :
  trim (String " " (String HT "") ++ "db one" ++ String CR (String LF "")) =
  "db one".
Proof.
  refine (trim_of_wrapped (String " " (String HT "")) "db one"
            (String CR (String LF "")) eq_refl eq_refl _).
  split; [reflexivity|]. intros c [= <-]. reflexivity.
Defined.

(** X3.  [trim] returns the empty string exactly on an input made of
    whitespace only, the empty input included. *)
Theorem trim_empty_iff_whitespace (str : string) :
  trim str = "" <-> blank str = true.
Proof.
  split.
  - intros H. destruct (trim_split str) as (l & r & Hs & Hl & Hr).
    rewrite H in Hs. cbn [append] in Hs.
    rewrite Hs, blank_append, Hl, Hr. reflexivity.
  - intros H. unfold trim. rewrite (rtrim_blank _ H). reflexivity.
Qed.

(** X4.  Trimming twice is trimming once. *)
Theorem trim_twice (str : string) : trim (trim str) = trim str.
Proof.
  destruct (trim_trimmed str) as [Hfirst Hlast].
  unfold trim at 1. rewrite (rtrim_fixed _ Hlast).
  now apply ltrim_fixed.
Qed.

(** X5.  [ltrim] takes away the whitespace at the front only: the input
    is a whitespace-only string followed by the result, the result does
    not start with whitespace, and its last character is that of the
    input. *)
Theorem ltrim_strips_front_only (str : string) :
  (exists l, str = l ++ ltrim str /\ blank l = true) /\
  is_space (char0 (ltrim str)) = false /\
  (forall c, last_char (ltrim str) = Some c -> last_char str = Some c).
Proof.
  repeat split.
  - apply ltrim_split.
  - apply ltrim_front.
  - apply ltrim_last.
Qed.

(** X6.  [rtrim] takes away the whitespace at the back only: the input
    is the result followed by a whitespace-only string, the result does
    not end with whitespace, and unless it is empty its first character
    is that of the input. *)
Theorem rtrim_strips_back_only (str : string) :
  (exists r, str = rtrim str ++ r /\ blank r = true) /\
  (forall c, last_char (rtrim str) = Some c -> is_space c = false) /\
  (rtrim str <> "" -> char0 (rtrim str) = char0 str).
Proof.
  repeat split.
  - apply rtrim_split.
  - apply rtrim_last.
  - intros Hne. destruct (rtrim_split str) as (r & Hs & _).
    rewrite Hs at 2. symmetry. now apply char0_append.
Qed.

(* ================================================================== *)
(** ** More on the option loop *)

Section LoopFacts.

Lemma occurs_append c a b : occurs c (a ++ b) -> occurs c a \/ occurs c b.
Proof.
  induction a as [|d a IH]; cbn [append]; [now right|].
  rewrite !occurs_cons. intros [->|H]; [now left; left|].
  destruct (IH H); tauto.
Qed.


Lemma outcome_ok r spec : outcome r = inl spec -> r = Ok spec.
Proof. destruct r; simpl; congruence. Qed.

(** A pass that ends without a throw does so on every argument vector
    with the same next token, if it looked at one. *)
Lemma loop_body_ok_ext argv argv' index opt s r :
  loop_body argv index opt s = Ok r ->
  (forall next, nth_error argv (index + 1) = Some next ->
                nth_error argv' (index + 1) = Some next) ->
  loop_body argv' index opt s = Ok r.
Proof.
  intros L N. destruct (loop_body_view opt) as [(f & F)|[(f & F)|F]].
  - rewrite (loop_body_short f) in * by exact F.
    destruct (parse_next_arg argv index (missing f)) as [a|] eqn:P;
      simpl in L; [|discriminate].
    apply parse_next_arg_ok in P. destruct P as (next & Nn & Hd & Ht & ->).
    assert (P' : parse_next_arg argv' index (missing f) = Ok (trim next)).
    { apply parse_next_arg_ok. exists next. auto. }
    now rewrite P'.
  - now rewrite (loop_body_long f) in * by exact F.
  - now rewrite F in *.
Qed.

(** The scan of a list that is scanned without a throw goes on behind it
    with the locals it ended with. *)
Lemma scan_app pre rest :
  forall skip s s',
    skip <= List.length pre ->
    scan pre skip s = Ok s' ->
    scan (pre ++ rest) skip s = scan rest 0 s'.
Proof.
  induction pre as [|x pre IH]; intros skip s s' Hskip H.
  - destruct skip; [|simpl in Hskip; lia]. simpl in H. now injection H as ->.
  - destruct skip as [|k].
    + rewrite scan_cons in H. cbn [app]. rewrite scan_cons.
      destruct (loop_body (x :: pre) 0 x s) as [[s1 k1]|e] eqn:L;
        [|discriminate].
      assert (L' : loop_body (x :: pre ++ rest) 0 x s = Ok (s1, k1)).
      { apply (loop_body_ok_ext _ _ _ _ _ _ L). intros next. simpl.
        destruct pre; [discriminate | auto]. }
      rewrite L'. apply IH; [|exact H].
      apply loop_body_index in L. simpl in L. lia.
    + simpl in *. apply IH; [lia | exact H].
Qed.

(** A successful scan reaches every token that begins with a dash. *)
Lemma scan_lands a A spec :
  begins_with "-" a ->
  forall pre skip s,
    skip <= List.length pre ->
    scan (pre ++ a :: A) skip s = Ok spec ->
    exists s', scan (a :: A) 0 s' = Ok spec.
Proof.
  intros Da. induction pre as [|x pre IH]; intros skip s Hskip H.
  - destruct skip; [|simpl in Hskip; lia]. now exists s.
  - destruct skip as [|k]; [|simpl in *; apply (IH k s); [lia | exact H]].
    cbn [app] in H. rewrite scan_cons in H.
    destruct (loop_body (x :: pre ++ a :: A) 0 x s) as [[s1 k1]|e] eqn:L;
      [|discriminate].
    apply (IH k1 s1); [|exact H].
    destruct (loop_body_index _ _ _ _ _ _ L) as [->|[-> _]]; [lia|].
    destruct pre as [|y pre]; [|simpl; lia].
    apply loop_body_moved in L. destruct L as (next & N & Hd).
    injection N as <-. contradiction.
Qed.

(** A pass at a token that is no option for [f] leaves [f] alone. *)
Lemma loop_body_other_field f argv index opt s s' index' :
  ~ names_field f opt ->
  loop_body argv index opt s = Ok (s', index') ->
  get f s' = get f s.
Proof.
  intros Hn. destruct (loop_body_view opt) as [(g & G)|[(g & G)|G]].
  - rewrite (loop_body_short g) by exact G.
    destruct (parse_next_arg argv index (missing g)); simpl; [|discriminate].
    intros [= <- _]. apply get_set_other. intros ->. apply Hn. now left.
  - rewrite (loop_body_long g) by exact G.
    destruct (parse_equal_arg opt (missing g)); simpl; [|discriminate].
    intros [= <- _]. apply get_set_other. intros ->. apply Hn. now right.
  - rewrite G. now intros [= <- _].
Qed.

Lemma scan_untouched f toks :
  (forall tok, In tok toks -> ~ names_field f tok) ->
  forall skip s spec, scan toks skip s = Ok spec -> get f spec = get f s.
Proof.
  induction toks as [|x toks IH]; intros Hn skip s spec H.
  - destruct skip; simpl in H; now injection H as <-.
  - assert (Hn' : forall tok, In tok toks -> ~ names_field f tok).
    { intros tok Hin. apply Hn. now right. }
    destruct skip as [|k]; [|simpl in H; now apply (IH Hn' k)].
    rewrite scan_cons in H.
    destruct (loop_body (x :: toks) 0 x s) as [[s1 k1]|e] eqn:L;
      [|discriminate].
    rewrite (IH Hn' _ _ _ H).
    apply (loop_body_other_field f _ _ _ _ _ _ (Hn x (or_introl eq_refl)) L).
Qed.

Lemma supplies_dash f v toks :
  supplies f v toks -> exists a A, toks = a :: A /\ begins_with "-" a.
Proof.
  intros [sh F Hd|].
  - exists sh, [v]. split; [reflexivity|]. now apply short_form_dash with f.
  - eexists _, []. split; [reflexivity|].
    apply is_long_dash with f. now exists (String "=" v).
Qed.

(** What the scan does at the tokens that supply a field. *)
Lemma scan_supplies f v toks post s :
  supplies f v toks ->
  outcome (scan (toks ++ post) 0 s) =
  if StdString.empty (trim v) then inr (missing f)
  else outcome (scan post 0 (set f (trim v) s)).
Proof.
  intros [sh F Hd|]; cbn [app]; rewrite scan_cons.
  - rewrite (loop_body_short f) by exact F.
    unfold parse_next_arg. cbn [nth_error Nat.add].
    destruct (Ascii.eqb (char0 v) "-") eqn:D.
    { now apply front_dash in D. }
    cbn [negb]. destruct (StdString.empty (trim v)); reflexivity.
  - rewrite (loop_body_long f) by (now exists (String "=" v)).
    rewrite parse_equal_arg_split by apply long_form_no_equal.
    destruct (StdString.empty (trim v)); reflexivity.
Qed.

End LoopFacts.

(** X7.  The test for a leading dash is made on the raw next token,
    before it is trimmed: a next token with whitespace in front of a dash
    is accepted by a short form, and the value stored begins with the
    dash. *)
Theorem dash_guard_sees_raw_token argv index f sh s l r :
  short_form f = Some sh ->
  nth_error argv (index + 1) = Some (l ++ String "-" r) ->
  blank l = true -> l <> "" ->
  loop_body argv index sh s =
    Ok (set f (trim (String "-" r)) s, index + 1) /\
  begins_with "-" (trim (String "-" r)).
Proof.
  intros F N Hl Hne.
  assert (B : begins_with "-" (trim (String "-" r))).
  { assert (D : is_space "-" = false) by reflexivity.
    unfold trim. rewrite rtrim_cons, D.
    destruct (blank r); rewrite ltrim_cons, D; eexists; reflexivity. }
  split; [|exact B].
  rewrite (loop_body_short f) by exact F.
  assert (P : parse_next_arg argv index (missing f) =
              Ok (trim (l ++ String "-" r))).
  { apply parse_next_arg_ok. exists (l ++ String "-" r).
    repeat split; auto.
    - destruct l as [|c l]; [congruence|]. intros (x & H).
      injection H as -> _. discriminate Hl.
    - rewrite (trim_blank_prefix _ _ Hl). destruct B as (x & ->).
      discriminate. }
  rewrite P. simpl. now rewrite (trim_blank_prefix _ _ Hl).
Qed.

Lemma dash_guard_sees_raw_token_witness :
  loop_body ["pg_check_conn"; "-t"; " -1"] 1 "-t" no_options =
    Ok (set Timeout (trim "-1") no_options, 1 + 1) /\
  begins_with "-" (trim "-1").
Proof.
  refine (dash_guard_sees_raw_token ["pg_check_conn"; "-t"; " -1"] 1
            Timeout "-t" no_options " " "1" eq_refl eq_refl eq_refl _).
  discriminate.
Defined.

(** X8.  The short forms are matched as whole tokens: a token of a
    single dash, a character other than a dash and at least one more
    character (a short option with its value attached, say) is passed
    over, with no error and no field set. *)
Theorem attached_short_value_ignored argv index c rest s :
  c <> "-"%char -> rest <> "" ->
  loop_body argv index (String "-" (String c rest)) s = Ok (s, index).
Proof.
  intros Hc Hrest.
  destruct (loop_body_view (String "-" (String c rest)))
    as [(f & F)|[(f & (x & F))|F]].
  - destruct f; simpl in F; try discriminate; injection F as <- <-;
      now elim Hrest.
  - destruct f; simpl in F; injection F as -> _; now elim Hc.
  - apply F.
Qed.

Lemma attached_short_value_ignored_witness :
  loop_body ["pg_check_conn"; "-p5432"] 1 "-p5432" no_options =
  Ok (no_options, 1).
Proof.
  refine (attached_short_value_ignored ["pg_check_conn"; "-p5432"] 1
            "p" "5432" no_options _ _); discriminate.
Defined.

(** X9.  Parsing composes: when the arguments up to some point parse on
    their own, the parse of a longer command line is the loop run on the
    remaining tokens with the locals that the first part left. *)
Theorem parse_continues_after_prefix prog pre rest s' :
  parse_args (prog :: pre) = Some (Ok s') ->
  parse_args (prog :: pre ++ rest) =
  parse_loop (List.length rest) rest 0 s'.
Proof.
  rewrite !parse_args_scan. cbn [tl]. intros [= H].
  rewrite (scan_app _ rest _ _ _ (Nat.le_0_l _) H).
  rewrite parse_loop_scan by lia. reflexivity.
Qed.

Lemma parse_continues_after_prefix_witness :
  parse_args ("pg_check_conn" :: ["-d"; "sales"] ++ ["--port=5433"]) =
  parse_loop (List.length ["--port=5433"]) ["--port=5433"] 0
    (mkConnSpec "sales" "" "" "" "" "").
Proof.
  exact (parse_continues_after_prefix "pg_check_conn" ["-d"; "sales"]
           ["--port=5433"] (mkConnSpec "sales" "" "" "" "" "") eq_refl).
Defined.

(** X10.  The last occurrence of an option wins, whatever its form: when
    the parse succeeds and no token after the tokens that supply a field
    is an option for that field, the field holds the trimmed value they
    supply. *)
Theorem last_occurrence_wins prog pre toks post f v spec :
  supplies f v toks ->
  (forall tok, In tok post -> ~ names_field f tok) ->
  parse_args (prog :: pre ++ toks ++ post) = Some (Ok spec) ->
  get f spec = trim v.
Proof.
  intros Hs Hpost. rewrite parse_args_scan. cbn [tl]. intros [= H].
  destruct (supplies_dash _ _ _ Hs) as (a & A & E & Da).
  assert (L : exists s', scan (toks ++ post) 0 s' = Ok spec).
  { rewrite E in *. now apply (scan_lands a (A ++ post) spec Da pre 0
                                 no_options (Nat.le_0_l _)). }
  destruct L as (s' & L).
  pose proof (scan_supplies f v toks post s' Hs) as O.
  rewrite L in O. simpl in O.
  destruct (StdString.empty (trim v)); [discriminate|].
  symmetry in O. apply outcome_ok in O.
  rewrite (scan_untouched f post Hpost _ _ _ O). apply get_set_same.
Qed.

Lemma last_occurrence_wins_witness :
  get Port (mkConnSpec "x" "" "" "" "5433" "") = trim "5433 ".
Proof.
  refine (last_occurrence_wins "pg_check_conn" ["-p"; "5432"]
            ["--port=5433 "] ["-d"; "x"] Port "5433 "
            (mkConnSpec "x" "" "" "" "5433" "") (supplies_long _ _) _
            eq_refl).
  intros tok [<-|[<-|[]]] [H|(x & H)]; discriminate.
Defined.

(** X11.  An option that is not on the command line leaves its field
    empty: when the parse succeeds and no token is an option for a
    field, in either form, that field is the empty string. *)
Theorem option_absent_field_empty prog toks f spec :
  (forall tok, In tok toks -> ~ names_field f tok) ->
  parse_args (prog :: toks) = Some (Ok spec) ->
  get f spec = "".
Proof.
  intros Hn. rewrite parse_args_scan. cbn [tl]. intros [= H].
  rewrite (scan_untouched f toks Hn _ _ _ H). now destruct f.
Qed.

Lemma option_absent_field_empty_witness :
  get Username (mkConnSpec "sales" "" "" "" "5433" "") = "".
Proof.
  refine (option_absent_field_empty "pg_check_conn"
            ["-d"; "sales"; "--port=5433"] Username
            (mkConnSpec "sales" "" "" "" "5433" "") _ eq_refl).
  intros tok [<-|[<-|[<-|[]]]] [H|(x & H)]; discriminate.
Defined.



(** X13.  The program name is never looked at as an option: the parse
    depends on the arguments after it alone, and with none it succeeds
    with every field empty. *)
Theorem program_name_not_parsed prog prog' toks :
  parse_args (prog :: toks) = parse_args (prog' :: toks) /\
  parse_args [prog] = Some (Ok no_options).
Proof.
  split.
  - rewrite (parse_args_scan (prog :: toks)).
    rewrite (parse_args_scan (prog' :: toks)). reflexivity.
  - reflexivity.
Qed.

Section ErrorOrigin.

Lemma scan_throw_origin toks :
  forall skip s e,
    scan toks skip s = Throw e ->
    exists opt f,
      In opt toks /\
      ((short_form f = Some opt /\ e = OutOfRange (missing f)) \/
       (is_long f opt /\ e = RuntimeError (missing f))).
Proof.
  induction toks as [|x toks IH]; intros skip s e H.
  - destruct skip; discriminate.
  - assert (Tail : forall k s1, scan toks k s1 = Throw e ->
               exists opt f,
                 In opt (x :: toks) /\
                 ((short_form f = Some opt /\ e = OutOfRange (missing f)) \/
                  (is_long f opt /\ e = RuntimeError (missing f)))).
    { intros k s1 H1. destruct (IH _ _ _ H1) as (opt & f & Hin & Hc).
      exists opt, f. split; [now right | exact Hc]. }
    destruct skip as [|k]; [|simpl in H; now apply (Tail k s)].
    rewrite scan_cons in H.
    destruct (loop_body (x :: toks) 0 x s) as [[s1 k1]|e'] eqn:L;
      [now apply (Tail k1 s1)|].
    injection H as ->. exists x.
    destruct (loop_body_view x) as [(f & F)|[(f & F)|F]].
    + exists f. split; [now left|]. left. split; [exact F|].
      rewrite (loop_body_short f) in L by exact F.
      destruct (parse_next_arg (x :: toks) 0 (missing f)) eqn:P;
        simpl in L; [discriminate|].
      injection L as <-. now apply parse_next_arg_throw in P.
    + exists f. split; [now left|]. right. split; [exact F|].
      rewrite (loop_body_long f) in L by exact F.
      destruct (parse_equal_arg x (missing f)) eqn:P;
        simpl in L; [discriminate|].
      injection L as <-. now apply parse_equal_arg_throw in P.
    + rewrite F in L. discriminate.
Qed.

End ErrorOrigin.

(** X14.  A parse error is always about an option that is on the command
    line: the message names the field of a token after the program name
    that is a short form, thrown as [std::out_of_range], or a long form,
    thrown as [std::runtime_error], of that field. *)
Theorem parse_error_names_option_present argv e :
  parse_args argv = Some (Throw e) ->
  exists opt f,
    In opt (tl argv) /\ what e = missing f /\
    ((short_form f = Some opt /\ e = OutOfRange (missing f)) \/
     (is_long f opt /\ e = RuntimeError (missing f))).
Proof.
  rewrite parse_args_scan. intros [= H].
  destruct (scan_throw_origin _ _ _ _ H) as (opt & f & Hin & Hc).
  exists opt, f. repeat split; auto.
  destruct Hc as [[_ ->]|[_ ->]]; reflexivity.
Qed.

Lemma parse_error_names_option_present_witness :
  exists opt f,
    In opt (tl ["pg_check_conn"; "-d"; "x"; "--port"]) /\
    what (RuntimeError "missing port argument") = missing f /\
    ((short_form f = Some opt /\
      RuntimeError "missing port argument" = OutOfRange (missing f)) \/
     (is_long f opt /\
      RuntimeError "missing port argument" = RuntimeError (missing f))).
Proof.
  exact (parse_error_names_option_present
           ["pg_check_conn"; "-d"; "x"; "--port"]
           (RuntimeError "missing port argument") eq_refl).
Defined.

(** X15.  The option loop ends: entered at any index, as many passes as
    there are tokens from that index on are enough, and allowing more
    passes does not change the result. *)
Theorem option_loop_terminates fuel argv index s :
  List.length argv <= index + fuel ->
  exists r,
    parse_loop fuel argv index s = Some r /\
    parse_loop (List.length argv - index) argv index s = Some r.
Proof.
  intros H. exists (scan (skipn index argv) 0 s).
  split; apply parse_loop_scan; lia.
Qed.

Lemma option_loop_terminates_witness :
  exists r,
    parse_loop 7 ["pg_check_conn"; "-d"; "sales"; "-U"] 1 no_options =
      Some r /\
    parse_loop (List.length ["pg_check_conn"; "-d"; "sales"; "-U"] - 1)
      ["pg_check_conn"; "-d"; "sales"; "-U"] 1 no_options = Some r.
Proof.
  refine (option_loop_terminates 7 ["pg_check_conn"; "-d"; "sales"; "-U"] 1
            no_options _).
  simpl. lia.
Defined.

(** X16.  Long forms are matched by their first characters only: a token
    that starts with the name of a long form, goes on with any characters
    other than [=], and then has [=] and a value that does not trim to
    the empty string, sets the field to the trimmed value. *)
Theorem long_option_prefix_match argv index f junk value s :
  ~ occurs "=" junk -> trim value <> "" ->
  loop_body argv index (long_form f ++ junk ++ String "=" value) s =
  Ok (set f (trim value) s, index).
Proof.
  intros Hj Hv.
  rewrite (loop_body_long f) by (now exists (junk ++ String "=" value)).
  rewrite <- append_assoc. rewrite parse_equal_arg_split.
  - apply empty_false in Hv. now rewrite Hv.
  - intros H. apply occurs_append in H. destruct H as [H|H]; [|tauto].
    now apply long_form_no_equal in H.
Qed.

Lemma long_option_prefix_match_witness :
  loop_body ["pg_check_conn"; "--dbnamefoo=x"] 1
    (long_form Database ++ "foo" ++ String "=" "x") no_options =
  Ok (set Database (trim "x") no_options, 1).
Proof.
  refine (long_option_prefix_match ["pg_check_conn"; "--dbnamefoo=x"] 1
            Database "foo" "x" no_options _ _).
  - apply find_none. reflexivity.
  - discriminate.
Defined.

(* ================================================================== *)
(** ** More on the builder *)

Section BuilderFacts.

Lemma build_connstr_render s :
  build_connstr s =
  render_pairs [("dbname", database s); ("user", username s);
                ("hostaddr", hostaddr s); ("host", host s);
                ("port", port s); ("connect_timeout", timeout s)].
Proof.
  unfold build_connstr, is_empty, render_pairs.
  destruct (StdString.empty (database s)), (StdString.empty (username s)),
    (StdString.empty (hostaddr s)), (StdString.empty (host s)),
    (StdString.empty (port s)), (StdString.empty (timeout s));
    cbn [negb];
    repeat (rewrite ?append_assoc, ?append_nil_r; cbn [append]);
    reflexivity.
Qed.

Lemma render_pairs_empty kvs :
  render_pairs kvs = "" -> forall k v, In (k, v) kvs -> v = "".
Proof.
  induction kvs as [|[k0 v0] kvs IH]; intros H k v; [intros []|].
  cbn [render_pairs] in H. destruct (StdString.empty v0) eqn:E.
  - intros [[= <- <-]|Hin]; [now apply empty_true | now apply (IH H k)].
  - destruct k0; discriminate.
Qed.

Lemma render_pairs_ends_with_space kvs :
  render_pairs kvs = "" \/ last_char (render_pairs kvs) = Some " "%char.
Proof.
  induction kvs as [|[k v] kvs IH]; [now left|]. cbn [render_pairs].
  destruct (StdString.empty v); [exact IH|]. right.
  change (k ++ "=" ++ v ++ " " ++ render_pairs kvs)
    with (k ++ (String "=" v ++ String " " (render_pairs kvs))).
  rewrite <- append_assoc, last_char_append by discriminate.
  destruct IH as [->|IH]; [reflexivity|].
  rewrite last_char_cons; [exact IH|]. intros E. rewrite E in IH.
  discriminate.
Qed.

End BuilderFacts.

(** X17.  The connection string is empty for the empty specification
    only, and a connection string that is not empty ends with a space. *)
Theorem connstr_empty_or_trailing_space (s : ConnSpec) :
  (build_connstr s = "" <-> s = no_options) /\
  (build_connstr s <> "" ->
   last_char (build_connstr s) = Some " "%char).
Proof.
  split.
  - split; [|now intros ->].
    rewrite build_connstr_render. intros H.
    pose proof (render_pairs_empty _ H) as E.
    destruct s as [d u h ha p t]; cbn [database username host hostaddr
                                       port timeout] in E.
    rewrite (E "dbname" d), (E "user" u), (E "hostaddr" ha), (E "host" h),
      (E "port" p), (E "connect_timeout" t); [reflexivity|..];
      cbn [In]; tauto.
  - rewrite build_connstr_render. intros H.
    now destruct (render_pairs_ends_with_space
      [("dbname", database s); ("user", username s);
       ("hostaddr", hostaddr s); ("host", host s);
       ("port", port s); ("connect_timeout", timeout s)]).
Qed.

(** X18.  Values are put into the connection string as they are: a
    database value that goes on with [ user=<u>] and no user renders to
    the very string of the database and the user given apart. *)
Theorem connstr_values_not_escaped (s : ConnSpec) (d u : string) :
  d <> "" -> u <> "" ->
  build_connstr (set Database (d ++ " user=" ++ u) (set Username "" s)) =
  build_connstr (set Database d (set Username u s)).
Proof.
  intros Hd Hu. rewrite !build_connstr_render.
  destruct s as [d0 u0 h ha p t]. cbn [set set_database set_username
    database username host hostaddr port timeout render_pairs].
  destruct d as [|c d]; [congruence|]. destruct u as [|c' u]; [congruence|].
  cbn [append StdString.empty].
  repeat (rewrite ?append_assoc; cbn [append]). reflexivity.
Qed.

Lemma connstr_values_not_escaped_witness :
  build_connstr
    (set Database ("sales" ++ " user=" ++ "root") (set Username "" no_options)) =
  build_connstr (set Database "sales" (set Username "root" no_options)).
Proof.
  refine (connstr_values_not_escaped no_options "sales" "root" _ _);
    discriminate.
Defined.

(* ================================================================== *)
(** ** More on the run *)

Section RunFacts.

Variable PGconn : Type.
Variable PQconnectdb : string -> option PGconn.
Variable PQstatus : PGconn -> Z.
Variable PQerrorMessage : option PGconn -> string.
Variable getenv : string -> option string.

Local Notation "'MAIN'" :=
  (main PGconn PQconnectdb PQstatus PQerrorMessage getenv).

Lemma debug_log_out_cases connstr :
  out PGconn (debug_log PGconn getenv connstr (initial PGconn)) = [] \/
  out PGconn (debug_log PGconn getenv connstr (initial PGconn)) =
    [Stdout ("Conn string: " ++ connstr ++ endl)].
Proof.
  destruct (debug_log_out PGconn getenv connstr) as [[_ E]|[_ E]]; auto.
Qed.

(** X19.  The connection handle is released exactly once, as the last
    thing the program does, on every run that obtained one, whether the
    connection is good or not; a run without a handle never calls
    [PQfinish]. *)
Theorem handle_released_once argv :
  exists trace code,
    MAIN argv = Some (trace, code) /\
    (((exists spec h, parse_args argv = Some (Ok spec) /\
                      PQconnectdb (build_connstr spec) = Some h) /\
      exists before, trace = (before ++ [Finish])%list /\
                     ~ In Finish before) \/
     (~ (exists spec h, parse_args argv = Some (Ok spec) /\
                        PQconnectdb (build_connstr spec) = Some h) /\
      ~ In Finish trace)).
Proof.
  rewrite main_total. pose proof (parse_args_scan argv) as P.
  destruct (scan (tl argv) 0 no_options) as [spec|e] eqn:S.
  - rewrite run_probe. cbv zeta.
    assert (NoFin : forall evs,
      (forall ev, In ev evs -> ev <> Finish) ->
      ~ In Finish
          (out PGconn (debug_log PGconn getenv (build_connstr spec)
                         (initial PGconn)) ++ evs)%list).
    { intros evs Hevs Hin. apply in_app_or in Hin. destruct Hin as [Hin|Hin].
      - destruct (debug_log_out_cases (build_connstr spec)) as [E|E];
          rewrite E in Hin; cbn [In] in Hin;
          [contradiction | destruct Hin as [H|[]]; discriminate H].
      - now apply (Hevs _ Hin). }
    destruct (PQconnectdb (build_connstr spec)) as [h|] eqn:C.
    + destruct (Z.eqb (PQstatus h) CONNECTION_OK);
        do 2 eexists; (split; [reflexivity|]); left;
        (split; [now exists spec, h|]).
      * exists (out PGconn (debug_log PGconn getenv (build_connstr spec)
                             (initial PGconn)) ++
                [Connect (build_connstr spec)])%list.
        split; [now rewrite <- app_assoc|].
        apply NoFin. intros ev [<-|[]]. discriminate.
      * exists (out PGconn (debug_log PGconn getenv (build_connstr spec)
                             (initial PGconn)) ++
                [Connect (build_connstr spec);
                 Stdout ("Error: " ++ PQerrorMessage (Some h) ++ endl)])%list.
        split; [now rewrite <- app_assoc|].
        apply NoFin. intros ev [<-|[<-|[]]]; discriminate.
    + do 2 eexists. split; [reflexivity|]. right. split.
      * intros (spec' & h' & P' & C'). rewrite P in P'.
        injection P' as <-. rewrite C in C'. discriminate.
      * apply NoFin. intros ev [<-|[<-|[]]]; discriminate.
  - apply scan_throws in S. rewrite (run_parse_error _ _ _ _ _ _ S).
    do 2 eexists. split; [reflexivity|]. right. split.
    + intros (spec' & h' & P' & _). rewrite P in P'. discriminate.
    + intros [H|[]]. discriminate.
Qed.

(** X20.  A run whose options parse calls [PQconnectdb] exactly once,
    with the connection string built from the parsed options; a run with
    a parse error never calls it. *)
Theorem one_connection_attempt argv :
  exists trace code,
    MAIN argv = Some (trace, code) /\
    ((exists spec,
         parse_args argv = Some (Ok spec) /\
         exists before after,
           trace = (before ++ Connect (build_connstr spec) :: after)%list /\
           (forall c, ~ In (Connect c) before) /\
           (forall c, ~ In (Connect c) after)) \/
     ((exists e, parse_args argv = Some (Throw e)) /\
      forall c, ~ In (Connect c) trace)).
Proof.
  rewrite main_total. pose proof (parse_args_scan argv) as P.
  destruct (scan (tl argv) 0 no_options) as [spec|e] eqn:S.
  - rewrite run_probe. cbv zeta.
    assert (Before : forall c,
      ~ In (Connect c)
          (out PGconn (debug_log PGconn getenv (build_connstr spec)
                         (initial PGconn)))).
    { intros c Hin.
      destruct (debug_log_out_cases (build_connstr spec)) as [E|E];
        rewrite E in Hin; cbn [In] in Hin;
        [contradiction | destruct Hin as [H|[]]; discriminate H]. }
    destruct (PQconnectdb (build_connstr spec)) as [h|];
      [destruct (Z.eqb (PQstatus h) CONNECTION_OK)|];
      do 2 eexists; (split; [reflexivity|]); left; exists spec;
      (split; [exact P|]); eexists _, _;
      (split; [reflexivity|]); (split; [exact Before|]);
      intros c Hin; cbn [In] in Hin;
      repeat (destruct Hin as [Hin|Hin]; [discriminate Hin|]);
      contradiction.
  - pose proof S as S'. apply scan_throws in S'.
    rewrite (run_parse_error _ _ _ _ _ _ S').
    do 2 eexists. split; [reflexivity|]. right. split; [now exists e|].
    intros c [H|[]]. discriminate.
Qed.


End RunFacts.


